(** * mrjob/spark/runner.py: the Spark runner, embedded and verified

    A shallow embedding of [SparkMRJobRunner]: step grouping, the harness
    argument builder, step validation, file staging and the submission loop.

    Python values are modelled as follows.
    - A step description (a dict) is the record [Step]; only the keys the
      runner reads are kept.  A jobconf (a dict of strings) is a
      [gmap string string]; [step.get('jobconf')] is an [option] of it, so
      that a missing key ([None]) differs from an empty dict.
    - A raised exception is the [Raise] branch of [Result].
    - Code that drives the outside world (the filesystem, [spark-submit])
      runs in the monad [M]: the world is the history of the events issued so
      far, and an external call answers as a function of that history. *)

From Stdlib Require Import ZArith Lia Ascii.
From stdpp Require Import base option list strings gmap pretty.

(** ** Python values *)

(** An element of an argument list: [_spark_script_args] puts both strings
    and ints (the step numbers) in the list it returns. *)
Inductive Arg :=
  | AStr (s : string)
  | AInt (n : Z).

#[global] Instance Arg_eq_dec : EqDecision Arg.
Proof. solve_decision. Defined.

(** The exceptions this module raises or lets through. *)
Inductive Exn :=
  | IndexError
  | AttributeError
  | NotImplementedError (msg : string)
  | ValueError (msg : string)
  | StepFailedException (reason : string) (step_num : nat)
      (last_step_num : option nat) (num_steps : nat)
  | ExternalError (msg : string).

Inductive Result (A : Type) :=
  | Ok (a : A)
  | Raise (e : Exn).
Arguments Ok {A} a.
Arguments Raise {A} e.

Definition rbind {A B} (r : Result A) (k : A → Result B) : Result B :=
  match r with
  | Ok a => k a
  | Raise e => Raise e
  end.

Declare Scope result_scope.
Delimit Scope result_scope with result.
Notation "'do' x <- r ; k" := (rbind r (λ x, k))
  (at level 10, x name, r at level 100, k at level 200) : result_scope.
Notation "'do_' r ; k" := (rbind r (λ _, k))
  (at level 10, r at level 100, k at level 200) : result_scope.

(** Python truthiness of a string, and of an optional string ([None] and
    the empty string are falsy). *)
Definition truthy_str (s : string) : bool := negb (String.eqb s EmptyString).

Definition truthy (o : option string) : bool :=
  match o with
  | Some s => truthy_str s
  | None => false
  end.

(** ** Steps and step groups *)

Record Step := mkStep {
  step_type : string;                          (* step['type'] *)
  step_jobconf : option (gmap string string);  (* step.get('jobconf') *)
  step_input_manifest : bool;                  (* bool(step.get('input_manifest')) *)
  step_mapper : option (gmap string string);   (* step.get('mapper') *)
  step_combiner : option (gmap string string); (* step.get('combiner') *)
  step_reducer : option (gmap string string);  (* step.get('reducer') *)
}.

#[global] Instance Step_eq_dec : EqDecision Step.
Proof. solve_decision. Defined.

(** A group is the dict [dict(type=..., steps=[...], step_num=...)]. *)
Record Group := mkGroup {
  group_type : string;
  group_steps : list Step;
  group_step_num : nat;
}.

#[global] Instance Group_eq_dec : EqDecision Group.
Proof. solve_decision. Defined.

(** [groups[-1]['steps'][0].get('jobconf')]; indexing an empty list raises. *)
Definition first_jobconf (g : Group) : Result (option (gmap string string)) :=
  match group_steps g with
  | first :: _ => Ok (step_jobconf first)
  | [] => Raise IndexError
  end.

(** The test of the [if] in the loop of [_group_steps].  Python's [and]
    short-circuits: [groups[-1]] is only read when [groups] is not empty and
    the step is a streaming step. *)
Definition joins_last_group (groups : list Group) (step : Step) : Result bool :=
  if bool_decide (step_type step = "streaming") then
    match last groups with
    | None => Ok false
    | Some g =>
        if bool_decide (group_type g = "streaming") then
          (do jc <- first_jobconf g;
           Ok (bool_decide (step_jobconf step = jc)))%result
        else Ok false
    end
  else Ok false.

(** [groups[-1]['steps'].append(step)]: the last group is updated in place. *)
Definition append_to_last (groups : list Group) (step : Step) : list Group :=
  alter
    (λ g, mkGroup (group_type g) (group_steps g ++ [step]) (group_step_num g))
    (length groups - 1) groups.

(** One iteration of the loop of [_group_steps]. *)
Definition group_step (groups : list Group) (step_num : nat) (step : Step)
    : Result (list Group) :=
  (do join <- joins_last_group groups step;
   if join then Ok (append_to_last groups step)
   else Ok (groups ++ [mkGroup (step_type step) [step] step_num]))%result.

(** The loop [for step_num, step in enumerate(steps)], started at index
    [step_num] with the groups built so far. *)
Fixpoint group_loop (groups : list Group) (step_num : nat) (steps : list Step)
    : Result (list Group) :=
  match steps with
  | [] => Ok groups
  | step :: rest =>
      (do groups' <- group_step groups step_num step;
       group_loop groups' (S step_num) rest)%result
  end.

Definition _group_steps (steps : list Step) : Result (list Group) :=
  group_loop [] 0 steps.

(** ** The outside world *)

(** What the runner does to the outside world: the two filesystem calls it
    makes through [self.fs], and the launch of [spark-submit] with the return
    code the subprocess ended with. *)
Inductive Event :=
  | EvMkdir (uri : string)
  | EvPut (src uri : string)
  | EvSubmit (args : list Arg) (env : gmap string string) (returncode : Z).

(** The world is the history of events, oldest first. *)
Definition World := list Event.

(** Computations that may raise and that extend the history.  What happened
    before a [raise] stays in the history. *)
Definition M (A : Type) : Type := World → Result A * World.

Definition ret {A} (a : A) : M A := λ w, (Ok a, w).

Definition raise {A} (e : Exn) : M A := λ w, (Raise e, w).

Definition bind {A B} (m : M A) (k : A → M B) : M B :=
  λ w, match m w with
       | (Ok a, w') => k a w'
       | (Raise e, w') => (Raise e, w')
       end.

Definition lift {A} (r : Result A) : M A := λ w, (r, w).

Declare Scope world_scope.
Delimit Scope world_scope with world.
Notation "'run' x <- m ; k" := (bind m (λ x, k))
  (at level 10, x name, m at level 100, k at level 200) : world_scope.
Notation "'run_' m ; k" := (bind m (λ _, k))
  (at level 10, m at level 100, k at level 200) : world_scope.

(** [for x in xs: body(x)] *)
Fixpoint for_each {A} (xs : list A) (body : A → M unit) : M unit :=
  match xs with
  | [] => ret tt
  | x :: rest => (run_ body x; for_each rest body)%world
  end.

(** ** The runner object *)

(** [mrjob.setup.UploadDirManager], as far as this module reads it: the
    prefix and the items of [path_to_uri()] in iteration order. *)
Record UploadDirManager := mkUploadDirManager {
  prefix : string;
  path_to_uri : list (string * string);
}.

(** The attributes of [self] this module reads. *)
Record Runner := mkRunner {
  _mrjob_cls : option string;   (* the job class, by its __name__ *)
  _job_key : string;
  _steps : list Step;           (* self._get_steps() *)
  _spark_tmp_dir : string;
  _upload_mgr : option UploadDirManager;
  _output_dir : option string;
}.

(** The collaborators of the runner that live outside this file: methods of
    the superclass [MRJobBinRunner], helpers of other mrjob modules, and
    the Python library. *)
Record External := mkExternal {
  (* the character class [\w\d] of Python's [re] *)
  re_word : Ascii.ascii → bool;
  (* mrjob.parse.is_uri *)
  is_uri : string → bool;
  (* os.path.join, of the platform the runner runs on *)
  os_path_join : string → string → string;
  (* tempfile.gettempdir() *)
  gettempdir : string;
  (* mrjob.hadoop.fully_qualify_hdfs_path *)
  fully_qualify_hdfs_path : string → string;
  (* MRJobBinRunner._spark_master_is_local() *)
  _spark_master_is_local : bool;
  (* MRJobRunner._check_step, reached through super() *)
  super_check_step : Step → nat → Result unit;
  (* MRJobBinRunner._spark_script_args, reached through super() *)
  super_spark_script_args : nat → option nat → Result (list Arg);
  (* MRJobRunner._step_input_uris and _step_output_uri *)
  _step_input_uris : nat → list string;
  _step_output_uri : nat → string;
  (* MRJobRunner._mr_job_extra_args() and mrjob.util.cmd_line *)
  _mr_job_extra_args : list string;
  cmd_line : list string → string;
  (* MRJobRunner._jobconf_for_step and mrjob.compat.jobconf_from_dict
     (with its default of None) *)
  _jobconf_for_step : nat → gmap string string;
  jobconf_from_dict : gmap string string → string → option string;
  (* UploadDirManager.add(path) *)
  upload_mgr_add : UploadDirManager → string → UploadDirManager;
  (* get_spark_submit_bin(), _get_job_script_copy() (when the job has
     streaming steps) and _create_setup_wrapper_scripts(): they work on the
     local disk only; what is left of them for the rest of _run() is
     self._working_dir_mgr.paths() *)
  local_setup : Result (list string);
  (* MRJobBinRunner._args_for_spark_step *)
  _args_for_spark_step : nat → option nat → Result (list Arg);
  (* os.environ, MRJobBinRunner._spark_cmdenv, mrjob.conf.combine_local_envs
     and the directory _get_job_script_dir() returns *)
  os_environ : gmap string string;
  _spark_cmdenv : nat → gmap string string;
  combine_local_envs : gmap string string → gmap string string → gmap string string;
  _get_job_script_dir : string;
  (* repr() of an argument list and repr(signal.Signals(n)), the latter
     None when n is not a signal number (ValueError) *)
  py_repr : list Arg → string;
  signal_repr : Z → option string;
  (* how a filesystem call answers, given the history: None when it
     returns, Some e when it raises e *)
  fs_mkdir_raises : World → string → option Exn;
  fs_put_raises : World → string → string → option Exn;
  (* MRJobBinRunner._run_spark_submit: the return code of the subprocess,
     given the history *)
  spark_submit_returncode : World → list Arg → gmap string string → Z;
}.

(** ** Python library functions with a fixed meaning *)

Definition starts_with_slash (s : string) : bool :=
  match s with
  | String c _ => Ascii.eqb c "/"%char
  | EmptyString => false
  end.

Fixpoint ends_with_slash (s : string) : bool :=
  match s with
  | EmptyString => false
  | String c EmptyString => Ascii.eqb c "/"%char
  | String _ rest => ends_with_slash rest
  end.

(** [posixpath.join(a, *p)] *)
Definition posixpath_join (a : string) (p : list string) : string :=
  foldl (λ path b,
           if starts_with_slash b then b
           else if negb (truthy_str path) || ends_with_slash path then path +:+ b
           else path +:+ "/" +:+ b) a p.

(** [sep.join(parts)] *)
Definition str_join (sep : string) (parts : list string) : string :=
  String.concat sep parts.

(** The keyword arguments of the constructor this module depends on, as the
    superclass constructor stores them on [self]. *)
Record Kwargs := mkKwargs {
  kw_job_key : string;
  kw_steps : list Step;
  kw_spark_tmp_dir : option string;   (* self._opts['spark_tmp_dir'] *)
  kw_output_dir : option string;
}.

(** ** The methods of [SparkMRJobRunner] *)

Section SparkMRJobRunner.

Variable ext : External.

(** [_check_step]: the loop over the three sub-steps of a streaming step. *)
Fixpoint check_commands (step_num : nat)
    (mrcs : list (string * option (gmap string string))) : Result unit :=
  match mrcs with
  | [] => Ok tt
  | (mrc, sub) :: rest =>
      match sub with
      | Some d =>
          (* [if step.get(mrc)]: a dict is truthy when it is not empty *)
          if bool_decide (d ≠ ∅)
             && (bool_decide (is_Some (d !! "command"))
                 || bool_decide (is_Some (d !! "pre_filter")))
          then Raise (NotImplementedError
                 ("step " +:+ pretty step_num +:+ "'s " +:+ mrc +:+
                  " runs a command, but spark runner does not support commands"))
          else check_commands step_num rest
      | None => check_commands step_num rest
      end
  end.

Definition _check_step (mrjob_cls : option string) (step : Step) (step_num : nat)
    : Result unit :=
  (do_ super_check_step ext step step_num;
   if step_input_manifest step then
     Raise (NotImplementedError "spark runner does not support input manifests")
   else if bool_decide (step_type step = "streaming") then
     match mrjob_cls with
     | None => Raise (ValueError "You must set mrjob_cls to run streaming steps")
     | Some _ =>
         check_commands step_num
           [("mapper", step_mapper step);
            ("combiner", step_combiner step);
            ("reducer", step_reducer step)]
     end
   else Ok tt)%result.

(** Modelled from the spec: the superclass constructor, which is not in
    this file, checks every step of the job with [_check_step] while the
    runner is set up (section 7 of the specification: validation errors are
    raised eagerly during job setup; the constructor below notes that
    [_mrjob_cls] must be set "before checking steps in superclass
    __init__()"). *)
Fixpoint super_init_check_steps (mrjob_cls : option string) (step_num : nat)
    (steps : list Step) : Result unit :=
  match steps with
  | [] => Ok tt
  | step :: rest =>
      (do_ _check_step mrjob_cls step step_num;
       super_init_check_steps mrjob_cls (S step_num) rest)%result
  end.

Definition _pick_spark_tmp_dir (kw : Kwargs) : string :=
  match kw_spark_tmp_dir kw with
  | Some d =>
      if truthy_str d then
        if is_uri ext d then posixpath_join d [kw_job_key kw]
        else os_path_join ext d (kw_job_key kw)
      else if _spark_master_is_local ext then
        os_path_join ext (gettempdir ext) (kw_job_key kw +:+ "-spark")
      else posixpath_join (fully_qualify_hdfs_path ext "tmp/mrjob") [kw_job_key kw]
  | None =>
      if _spark_master_is_local ext then
        os_path_join ext (gettempdir ext) (kw_job_key kw +:+ "-spark")
      else posixpath_join (fully_qualify_hdfs_path ext "tmp/mrjob") [kw_job_key kw]
  end.

Definition __init__ (mrjob_cls : option string) (kw : Kwargs) : Result Runner :=
  (do_ super_init_check_steps mrjob_cls 0 (kw_steps kw);
   let spark_tmp_dir := _pick_spark_tmp_dir kw in
   Ok {| _mrjob_cls := mrjob_cls;
         _job_key := kw_job_key kw;
         _steps := kw_steps kw;
         _spark_tmp_dir := spark_tmp_dir;
         _upload_mgr :=
           if is_uri ext spark_tmp_dir then
             Some (mkUploadDirManager
                     (posixpath_join spark_tmp_dir ["files"; EmptyString]) [])
           else None;
         _output_dir :=
           if truthy (kw_output_dir kw) then kw_output_dir kw
           else Some (posixpath_join spark_tmp_dir ["output"]) |})%result.

Definition with_upload_mgr (r : Runner) (m : option UploadDirManager) : Runner :=
  {| _mrjob_cls := _mrjob_cls r;
     _job_key := _job_key r;
     _steps := _steps r;
     _spark_tmp_dir := _spark_tmp_dir r;
     _upload_mgr := m;
     _output_dir := _output_dir r |}.

Definition _add_job_files_for_upload (r : Runner) (paths : list string) : Runner :=
  match _upload_mgr r with
  | Some m => with_upload_mgr r (Some (foldl (upload_mgr_add ext) m paths))
  | None => r
  end.

(** [self.fs.mkdir(uri)] and [self.fs.put(src, uri)]: the call is recorded,
    then it returns or raises. *)
Definition fs_mkdir (uri : string) : M unit :=
  λ w, (match fs_mkdir_raises ext w uri with
        | Some e => Raise e
        | None => Ok tt
        end, w ++ [EvMkdir uri]).

Definition fs_put (src uri : string) : M unit :=
  λ w, (match fs_put_raises ext w src uri with
        | Some e => Raise e
        | None => Ok tt
        end, w ++ [EvPut src uri]).

Definition _upload_local_files (r : Runner) : M unit :=
  match _upload_mgr r with
  | None => ret tt
  | Some m =>
      (run_ fs_mkdir (prefix m);
       for_each (path_to_uri m) (λ '(src_path, uri), fs_put src_path uri))%world
  end.

Definition _num_steps (r : Runner) : nat := length (_steps r).

(** [self._get_step(step_num)], that is [self._get_steps()[step_num]] *)
Definition _get_step (r : Runner) (step_num : nat) : Result Step :=
  match _steps r !! step_num with
  | Some step => Ok step
  | None => Raise IndexError
  end.

(** [re.sub(r'[^\w\d]', '_', self._job_key)] *)
Fixpoint re_sub_non_word (s : string) : string :=
  match s with
  | EmptyString => EmptyString
  | String c rest =>
      String (if re_word ext c then c else "_"%char) (re_sub_non_word rest)
  end.

Definition _job_script_module_name (r : Runner) : string :=
  re_sub_non_word (_job_key r).

Definition _spark_script_args (r : Runner) (step_num : nat)
    (last_step_num : option nat) : Result (list Arg) :=
  (do step <- _get_step r step_num;
   if negb (bool_decide (step_type step = "streaming")) then
     super_spark_script_args ext step_num last_step_num
   else
     let last_step_num := default step_num last_step_num in
     (* class name; self._mrjob_cls.__name__ raises on None *)
     do cls <- match _mrjob_cls r with
               | Some name => Ok name
               | None => Raise AttributeError
               end;
     let args := [AStr (_job_script_module_name r +:+ "." +:+ cls)] in
     (* INPUT *)
     let args := args ++ [AStr (str_join "," (_step_input_uris ext step_num))] in
     (* OUTPUT *)
     let args := args ++ [AStr (_step_output_uri ext last_step_num)] in
     (* --first-step-num, --last-step-num, step range *)
     let args :=
       if negb (bool_decide (step_num = 0)
                && bool_decide (Z.of_nat last_step_num
                                = (Z.of_nat (_num_steps r) - 1)%Z))
       then args ++ [AStr "--first-step-num"; AInt (Z.of_nat step_num);
                     AStr "--last_step_num"; AInt (Z.of_nat step_num)]
       else args in
     (* --job-args (passthrough args) *)
     let job_args := _mr_job_extra_args ext in
     let args :=
       match job_args with
       | [] => args
       | _ :: _ => args ++ [AStr "--job-args"; AStr (cmd_line ext job_args)]
       end in
     (* --compression-codec *)
     let jobconf := _jobconf_for_step ext step_num in
     let compress_conf :=
       jobconf_from_dict ext jobconf "mapreduce.map.output.compress" in
     let codec_conf :=
       jobconf_from_dict ext jobconf "mapreduce.map.output.compress.codec" in
     let args :=
       if truthy compress_conf
          && negb (bool_decide (compress_conf = Some "false"))
          && truthy codec_conf
       then args ++ [AStr "--compression-codec"; AStr (default EmptyString codec_conf)]
       else args in
     Ok args)%result.

(** [str(CalledProcessError(returncode, cmd))], as Python 3 defines it. *)
Definition CalledProcessError_str (returncode : Z) (cmd : list Arg) : string :=
  if bool_decide (returncode ≠ 0%Z) && bool_decide (returncode < 0)%Z then
    match signal_repr ext (- returncode)%Z with
    | Some sig =>
        "Command '" +:+ py_repr ext cmd +:+ "' died with " +:+ sig +:+ "."
    | None =>
        "Command '" +:+ py_repr ext cmd +:+ "' died with unknown signal "
          +:+ pretty (- returncode)%Z +:+ "."
    end
  else
    "Command '" +:+ py_repr ext cmd +:+ "' returned non-zero exit status "
      +:+ pretty returncode +:+ ".".

(** [self._run_spark_submit(args, env, record_callback=...)]: the launch is
    recorded with the return code of the subprocess. *)
Definition _run_spark_submit (args : list Arg) (env : gmap string string) : M Z :=
  λ w, let returncode := spark_submit_returncode ext w args env in
       (Ok returncode, w ++ [EvSubmit args env returncode]).

(** The environment [_run_step_on_spark] builds: [env.update(d)] lets the
    keys of [d] win. *)
Definition step_env (step_num : nat) : gmap string string :=
  let env := _spark_cmdenv ext step_num ∪ os_environ ext in
  if _spark_master_is_local ext then
    combine_local_envs ext env {[ "PYTHONPATH" := _get_job_script_dir ext ]}
  else env.

(** [_run_step_on_spark]; the warning it may log is not modelled. *)
Definition _run_step_on_spark (r : Runner) (step : Step) (step_num : nat)
    (last_step_num : option nat) : M unit :=
  (run spark_submit_args <- lift (_args_for_spark_step ext step_num last_step_num);
   let env := step_env step_num in
   run returncode <- _run_spark_submit spark_submit_args env;
   if bool_decide (returncode ≠ 0%Z) then
     let reason := CalledProcessError_str returncode spark_submit_args in
     raise (StepFailedException reason step_num last_step_num (_num_steps r))
   else ret tt)%world.

(** The body of the loop of [_run_steps_on_spark] for one group. *)
Definition run_group (r : Runner) (group : Group) : M unit :=
  let step_num := group_step_num group in
  let last_step_num := step_num + length (group_steps group) - 1 in
  match group_steps group with
  | first :: _ => _run_step_on_spark r first step_num (Some last_step_num)
  | [] => raise IndexError
  end.

Definition _run_steps_on_spark (r : Runner) : M unit :=
  let steps := _steps r in
  (run groups <- lift (_group_steps steps);
   for_each groups (run_group r))%world.

Definition _run (r : Runner) : M unit :=
  (run paths <- lift (local_setup ext);
   let r := _add_job_files_for_upload r paths in
   run_ _upload_local_files r;
   _run_steps_on_spark r)%world.

(** A runner is constructed, then run: what a caller of this class does. *)
Definition make_and_run (mrjob_cls : option string) (kw : Kwargs) : M unit :=
  (run r <- lift (__init__ mrjob_cls kw);
   _run r)%world.

End SparkMRJobRunner.

(** ** Paths the runner derives *)

(** [s.endswith(suffix)] *)
Fixpoint str_endswith (suffix s : string) : bool :=
  String.eqb s suffix
  || match s with
     | EmptyString => false
     | String _ rest => str_endswith suffix rest
     end.

(** [s[:-1]] *)
Fixpoint drop_last (s : string) : string :=
  match s with
  | EmptyString => EmptyString
  | String _ EmptyString => EmptyString
  | String c rest => String c (drop_last rest)
  end.

(** [_spark_harness_path], given [mrjob_spark_harness.__file__]. *)
Definition _spark_harness_path (harness_file : string) : string :=
  let path := harness_file in
  if str_endswith ".pyc" path then drop_last path else path.

Definition _default_step_output_dir (r : Runner) : string :=
  posixpath_join (_spark_tmp_dir r) ["step-output"].

(** ** The copy of the job script *)

Module JobScript.

(** The attributes of [self] and the part of the local disk that
    [_get_job_script_dir] and [_get_job_script_copy] read and write. *)
Record State := mkState {
  _job_script_copy : option string;
  _mrjob_script_copy : option string;   (* None: the attribute is not set *)
  _spark_files : list (string * string);
  (* the calls _working_dir_mgr.add(type, path, name), oldest first *)
  working_dir_added : list (string * string * string);
  (* the calls _symlink_or_copy(src, dest), oldest first *)
  copied : list (string * string);
  (* the paths os.path.exists() finds *)
  disk : gset string;
}.

(** What these two methods take from outside, besides [os.path.join] and
    the character class of [re], which are in [External].  The answers of
    [_symlink_or_copy] and of [_working_dir_mgr.add] are those of one call of
    [_get_job_script_copy], which is how [_run] uses it. *)
Record Env := mkEnv {
  script_path : string;             (* self._script_path *)
  local_tmp_dir : string;           (* self._get_local_tmp_dir() *)
  mkdir_raises : string → option Exn;             (* os.mkdir *)
  copy_raises : string → string → option Exn;     (* _symlink_or_copy *)
  add_raises : string → string → string → option Exn;  (* _working_dir_mgr.add *)
}.

Definition with_disk (st : State) (d : gset string) : State :=
  mkState (_job_script_copy st) (_mrjob_script_copy st) (_spark_files st)
    (working_dir_added st) (copied st) d.

Definition _get_job_script_dir (ext : External) (env : Env) (st : State)
    : Result string * State :=
  let path := os_path_join ext (local_tmp_dir env) "job_script" in
  if bool_decide (path ∈ disk st) then (Ok path, st)
  else
    match mkdir_raises env path with
    | Some e => (Raise e, st)
    | None => (Ok path, with_disk st ({[ path ]} ∪ disk st))
    end.

Definition _get_job_script_copy (ext : External) (r : Runner) (env : Env)
    (st : State) : Result string * State :=
  let '(res, st) :=
    if negb (truthy (_job_script_copy st)) then
      let filename := _job_script_module_name ext r +:+ ".py" in
      match _get_job_script_dir ext env st with
      | (Raise e, st) => (Raise e, st)
      | (Ok dir, st) =>
          let dest := os_path_join ext dir filename in
          match copy_raises env (script_path env) dest with
          | Some e => (Raise e, st)
          | None =>
              let st := mkState (_job_script_copy st) (_mrjob_script_copy st)
                          (_spark_files st ++ [(filename, dest)])
                          (working_dir_added st)
                          (copied st ++ [(script_path env, dest)]) (disk st) in
              match add_raises env "file" dest filename with
              | Some e => (Raise e, st)
              | None =>
                  (Ok tt,
                   mkState (_job_script_copy st) (Some dest) (_spark_files st)
                     (working_dir_added st ++ [("file", dest, filename)])
                     (copied st) (disk st))
              end
          end
      end
    else (Ok tt, st) in
  match res with
  | Raise e => (Raise e, st)
  | Ok _ =>
      match _mrjob_script_copy st with
      | Some path => (Ok path, st)
      | None => (Raise AttributeError, st)
      end
  end.

End JobScript.

(** * The vocabulary of the properties *)

(** The steps of the groups, in order. *)
Definition flatten (groups : list Group) : list Step :=
  concat (group_steps <$> groups).

(** The groups the loop builds: no group is empty, and a group starts where
    the groups before it end. *)
Inductive groups_wf : list Group → Prop :=
  | groups_wf_nil : groups_wf []
  | groups_wf_snoc groups g :
      groups_wf groups →
      group_steps g ≠ [] →
      group_step_num g = length (flatten groups) →
      groups_wf (groups ++ [g]).

#[local] Hint Constructors groups_wf : core.

(** [s1] and [s2] are members [k] and [k + 1] of one group, at positions [i]
    and [i + 1] of the job. *)
Definition adjacent_in (groups : list Group) (i : nat) (s1 s2 : Step) : Prop :=
  ∃ g k, g ∈ groups ∧ group_step_num g + k = i
    ∧ group_steps g !! k = Some s1 ∧ group_steps g !! S k = Some s2.

(** What [_spark_script_args] returns for a streaming step after the three
    positional arguments: the step range, the passthrough arguments, and the
    two jobconf values the compression flag depends on. *)
Definition range_part (r : Runner) (step_num last_step_num : nat) : list Arg :=
  if negb (bool_decide (step_num = 0)
           && bool_decide (Z.of_nat last_step_num = (Z.of_nat (_num_steps r) - 1)%Z))
  then [AStr "--first-step-num"; AInt (Z.of_nat step_num);
        AStr "--last_step_num"; AInt (Z.of_nat step_num)]
  else [].

Definition job_args_part (ext : External) : list Arg :=
  match _mr_job_extra_args ext with
  | [] => []
  | _ :: _ => [AStr "--job-args"; AStr (cmd_line ext (_mr_job_extra_args ext))]
  end.

Definition compress_conf (ext : External) (step_num : nat) : option string :=
  jobconf_from_dict ext (_jobconf_for_step ext step_num)
    "mapreduce.map.output.compress".

Definition codec_conf (ext : External) (step_num : nat) : option string :=
  jobconf_from_dict ext (_jobconf_for_step ext step_num)
    "mapreduce.map.output.compress.codec".

(** The test of the code on [mapreduce.map.output.compress]: the value is
    set, is not empty, and is not the string [false].  Any other text passes,
    also [False] and [0]. *)
Definition compress_conf_not_false (ext : External) (step_num : nat) : Prop :=
  ∃ v, compress_conf ext step_num = Some v ∧ v ≠ EmptyString ∧ v ≠ "false".

(** [s.lower()] on ASCII letters. *)
Definition ascii_lower (c : ascii) : ascii :=
  let n := nat_of_ascii c in
  if (65 <=? n) && (n <=? 90) then ascii_of_nat (n + 32) else c.

Fixpoint str_lower (s : string) : string :=
  match s with
  | EmptyString => EmptyString
  | String c rest => String (ascii_lower c) (str_lower rest)
  end.

(** In the words of the specification: the job configuration disables
    map-output compression.  The value set for it reads as the boolean
    false, which Hadoop reads without regard to case. *)
Definition spec_compression_disabled (ext : External) (step_num : nat) : Prop :=
  ∃ v, compress_conf ext step_num = Some v ∧ str_lower v = "false".

Definition codec_specified (ext : External) (step_num : nat) (codec : string)
    : Prop :=
  codec_conf ext step_num = Some codec ∧ codec ≠ EmptyString.

(** The return code a launch ended with. *)
Definition returncode_of (ev : Event) : option Z :=
  match ev with
  | EvSubmit _ _ returncode => Some returncode
  | _ => None
  end.

(** The last step of a group, as [_run_steps_on_spark] computes it. *)
Definition last_step_num_of (g : Group) : nat :=
  group_step_num g + length (group_steps g) - 1.

(** [ev] is the launch of [spark-submit] for the group [g]. *)
Definition launch_of (ext : External) (g : Group) (ev : Event) : Prop :=
  ∃ args returncode,
    _args_for_spark_step ext (group_step_num g) (Some (last_step_num_of g)) = Ok args
    ∧ ev = EvSubmit args (step_env ext (group_step_num g)) returncode.

(** A run over [groups] that ended with [res] after the events [evs]: the
    events are the launches of a prefix of the groups, one each and in
    order; every launch but the last returned 0; the run succeeds only when
    every group was launched and returned 0; it fails either with the
    [StepFailedException] of the last launched group, whose return code is not
    0, or before the launch of the next group, whose arguments could not be
    built, after launches that all returned 0. *)
Definition sequential_run (ext : External) (r : Runner) (groups : list Group)
    (res : Result unit) (evs : list Event) : Prop :=
  ∃ launched,
    launched `prefix_of` groups
    ∧ Forall2 (launch_of ext) launched evs
    ∧ (∀ i ev, evs !! i = Some ev → S i < length evs →
         returncode_of ev = Some 0%Z)
    ∧ match res with
      | Ok _ =>
          launched = groups ∧ Forall (λ ev, returncode_of ev = Some 0%Z) evs
      | Raise e =>
          (∃ g args env returncode,
             last launched = Some g
             ∧ last evs = Some (EvSubmit args env returncode)
             ∧ returncode ≠ 0%Z
             ∧ e = StepFailedException
                     (CalledProcessError_str ext returncode args)
                     (group_step_num g) (Some (last_step_num_of g))
                     (_num_steps r))
          ∨ (∃ g,
               groups !! length launched = Some g
               ∧ _args_for_spark_step ext (group_step_num g)
                   (Some (last_step_num_of g)) = Raise e
               ∧ Forall (λ ev, returncode_of ev = Some 0%Z) evs)
      end.

(** A sub-step that runs a command: the dict has the key [command] or the
    key [pre_filter]. *)
Definition runs_command (sub : option (gmap string string)) : Prop :=
  ∃ d, sub = Some d ∧ (is_Some (d !! "command") ∨ is_Some (d !! "pre_filter")).

(** The steps the Spark runner does not support. *)
Definition unsupported_step (step : Step) : Prop :=
  step_input_manifest step = true
  ∨ (step_type step = "streaming"
     ∧ (runs_command (step_mapper step) ∨ runs_command (step_combiner step)
        ∨ runs_command (step_reducer step))).

(** ** Vocabulary of the further properties *)

(** The members of a group agree: each has the type of the group and the
    jobconf of the first member, and only a streaming group has more than
    one member. *)
Definition group_uniform (g : Group) : Prop :=
  (∀ s, s ∈ group_steps g → step_type s = group_type g)
  ∧ (1 < length (group_steps g) → group_type g = "streaming")
  ∧ (∀ first s, head (group_steps g) = Some first → s ∈ group_steps g →
       step_jobconf s = step_jobconf first).

(** The loop would have put the first step of [g'] in [g]. *)
Definition mergeable (g g' : Group) : Prop :=
  group_type g = "streaming" ∧ group_type g' = "streaming"
  ∧ first_jobconf g' = first_jobconf g.

(** The invariant of the loop of [_group_steps], with the two facts above. *)
Inductive groups_inv : list Group → Prop :=
  | groups_inv_nil : groups_inv []
  | groups_inv_snoc groups g :
      groups_inv groups →
      group_steps g ≠ [] →
      group_step_num g = length (flatten groups) →
      group_uniform g →
      (∀ p, last groups = Some p → ¬ mergeable p g) →
      groups_inv (groups ++ [g]).

(** ** A concrete runner *)

(** [\w\d] on ASCII: letters, digits and the underscore. *)
Definition ascii_word (c : ascii) : bool :=
  let n := nat_of_ascii c in
  (48 <=? n) && (n <=? 57) || (65 <=? n) && (n <=? 90)
  || (97 <=? n) && (n <=? 122) || (n =? 95).

(** [repr] of a list of ints and of strings that need no escaping. *)
Definition simple_repr_arg (a : Arg) : string :=
  match a with
  | AStr s => "'" +:+ s +:+ "'"
  | AInt n => pretty n
  end.

Definition simple_repr (args : list Arg) : string :=
  "[" +:+ str_join ", " (simple_repr_arg <$> args) +:+ "]".

(** Collaborators that never fail, for a job with the given passthrough
    arguments and jobconf, and a [spark-submit] with the given return codes. *)
Definition demo_ext (job_args : list string) (jobconf : gmap string string)
    (returncode : World → Z) : External :=
  {| re_word := ascii_word;
     is_uri := λ s, bool_decide (is_Some (String.index 0 "://" s));
     os_path_join := λ a b, posixpath_join a [b];
     gettempdir := "/tmp";
     fully_qualify_hdfs_path := λ p, "hdfs:///user/hadoop/" +:+ p;
     _spark_master_is_local := true;
     super_check_step := λ _ _, Ok tt;
     super_spark_script_args := λ _ _, Ok [];
     _step_input_uris := λ n,
       match n with
       | 0 => ["in/a"; "in/b"]
       | _ => ["tmp/step-output/earlier"]
       end;
     _step_output_uri := λ n,
       match n with
       | 0 => "tmp/step-output/0000"
       | 1 => "tmp/step-output/0001"
       | _ => "out"
       end;
     _mr_job_extra_args := job_args;
     cmd_line := str_join " ";
     _jobconf_for_step := λ _, jobconf;
     jobconf_from_dict := λ d name, d !! name;
     upload_mgr_add := λ m p,
       mkUploadDirManager (prefix m) (path_to_uri m ++ [(p, prefix m +:+ p)]);
     local_setup := Ok ["wrapper.sh"];
     _args_for_spark_step := λ n last,
       Ok [AStr "spark-submit"; AStr "harness.py"; AInt (Z.of_nat n)];
     os_environ := ∅;
     _spark_cmdenv := λ _, ∅;
     combine_local_envs := λ a b, b ∪ a;
     _get_job_script_dir := "/tmp/job_script";
     py_repr := simple_repr;
     signal_repr := λ _, None;
     fs_mkdir_raises := λ _ _, None;
     fs_put_raises := λ _ _ _, None;
     spark_submit_returncode := λ w _ _, returncode w |}.

Definition streaming_step (jobconf : option (gmap string string)) : Step :=
  mkStep "streaming" jobconf false None None None.

Definition demo_runner (steps : list Step) : Runner :=
  {| _mrjob_cls := Some "MRWordCount";
     _job_key := "mr_word_count.user.20190101.000000";
     _steps := steps;
     _spark_tmp_dir := "/tmp/mr_word_count.user.20190101.000000-spark";
     _upload_mgr := None;
     _output_dir := Some "/tmp/mr_word_count.user.20190101.000000-spark/output" |}.

(** The same collaborators over a filesystem that answers differently. *)
Definition with_fs (ext : External)
    (mkdir_raises : World → string → option Exn)
    (put_raises : World → string → string → option Exn) : External :=
  {| re_word := re_word ext;
     is_uri := is_uri ext;
     os_path_join := os_path_join ext;
     gettempdir := gettempdir ext;
     fully_qualify_hdfs_path := fully_qualify_hdfs_path ext;
     _spark_master_is_local := _spark_master_is_local ext;
     super_check_step := super_check_step ext;
     super_spark_script_args := super_spark_script_args ext;
     _step_input_uris := _step_input_uris ext;
     _step_output_uri := _step_output_uri ext;
     _mr_job_extra_args := _mr_job_extra_args ext;
     cmd_line := cmd_line ext;
     _jobconf_for_step := _jobconf_for_step ext;
     jobconf_from_dict := jobconf_from_dict ext;
     upload_mgr_add := upload_mgr_add ext;
     local_setup := local_setup ext;
     _args_for_spark_step := _args_for_spark_step ext;
     os_environ := os_environ ext;
     _spark_cmdenv := _spark_cmdenv ext;
     combine_local_envs := combine_local_envs ext;
     _get_job_script_dir := _get_job_script_dir ext;
     py_repr := py_repr ext;
     signal_repr := signal_repr ext;
     fs_mkdir_raises := mkdir_raises;
     fs_put_raises := put_raises;
     spark_submit_returncode := spark_submit_returncode ext |}.

(** A job whose temporary directory is on HDFS. *)
Definition demo_uri_kwargs : Kwargs :=
  mkKwargs "mr_word_count.user.20190101.000000" [streaming_step None]
    (Some "hdfs:///tmp") None.

Definition demo_uri_runner : Runner :=
  {| _mrjob_cls := Some "MRWordCount";
     _job_key := "mr_word_count.user.20190101.000000";
     _steps := [streaming_step None];
     _spark_tmp_dir := "hdfs:///tmp/mr_word_count.user.20190101.000000";
     _upload_mgr :=
       Some (mkUploadDirManager
               "hdfs:///tmp/mr_word_count.user.20190101.000000/files/" []);
     _output_dir :=
       Some "hdfs:///tmp/mr_word_count.user.20190101.000000/output" |}.

(** A local disk and a fresh runner state for the copy of the job script. *)
Definition demo_script_env : JobScript.Env :=
  JobScript.mkEnv "mr_word_count.py" "/tmp/mr_word_count.user.20190101.000000"
    (λ _, None) (λ _ _, None) (λ _ _ _, None).

Definition demo_script_state : JobScript.State :=
  JobScript.mkState None None [] [] []
    {[ "/tmp/mr_word_count.user.20190101.000000" ]}.

(** * Properties *)

(** ** Step grouping *)

Lemma flatten_snoc groups g :
  flatten (groups ++ [g]) = flatten groups ++ group_steps g.
Proof.
  unfold flatten. rewrite fmap_app, concat_app. simpl.
  by rewrite app_nil_r.
Qed.

Lemma append_to_last_snoc before g step :
  append_to_last (before ++ [g]) step
  = before ++ [mkGroup (group_type g) (group_steps g ++ [step]) (group_step_num g)].
Proof.
  unfold append_to_last. rewrite length_app. simpl.
  replace (length before + 1 - 1) with (length before + 0) by lia.
  by rewrite (alter_app_r _ before [g] 0).
Qed.

Lemma group_step_nil step_num step :
  group_step [] step_num step = Ok [mkGroup (step_type step) [step] step_num].
Proof.
  unfold group_step, joins_last_group. simpl.
  by destruct (bool_decide (step_type step = "streaming")).
Qed.

(** What one iteration does to a list of groups whose last group has a first
    member. *)
Lemma group_step_snoc before ty first rest k step_num step :
  group_step (before ++ [mkGroup ty (first :: rest) k]) step_num step
  = Ok (if bool_decide (ty = "streaming" ∧ step_type step = "streaming"
                        ∧ step_jobconf step = step_jobconf first)
        then before ++ [mkGroup ty (first :: rest ++ [step]) k]
        else before ++ [mkGroup ty (first :: rest) k;
                        mkGroup (step_type step) [step] step_num]).
Proof.
  unfold group_step, joins_last_group. rewrite last_snoc. simpl.
  destruct (decide (step_type step = "streaming")) as [Hs|Hs];
    [rewrite (bool_decide_eq_true_2 _ Hs) | rewrite (bool_decide_eq_false_2 _ Hs)];
    simpl.
  - destruct (decide (ty = "streaming")) as [Ht|Ht];
      [rewrite (bool_decide_eq_true_2 _ Ht) | rewrite (bool_decide_eq_false_2 _ Ht)];
      simpl.
    + destruct (decide (step_jobconf step = step_jobconf first)) as [Hj|Hj].
      * rewrite (bool_decide_eq_true_2 _ Hj), bool_decide_eq_true_2 by done.
        by rewrite append_to_last_snoc.
      * rewrite (bool_decide_eq_false_2 _ Hj), bool_decide_eq_false_2 by tauto.
        by rewrite <- (assoc_L (++)).
    + rewrite bool_decide_eq_false_2 by tauto. by rewrite <- (assoc_L (++)).
  - rewrite bool_decide_eq_false_2 by tauto. by rewrite <- (assoc_L (++)).
Qed.

Lemma snoc_two {A} (l : list A) a b : l ++ [a; b] = (l ++ [a]) ++ [b].
Proof. by rewrite <- (assoc_L (++)). Qed.

Lemma groups_wf_last_nonempty before g :
  groups_wf (before ++ [g]) → ∃ first rest, group_steps g = first :: rest.
Proof.
  intros Hwf. inversion Hwf as [|gs g' _ Hne _ Heq].
  - by destruct before.
  - apply app_inj_tail in Heq as [_ ->].
    destruct (group_steps g) as [|first rest]; [done | eauto].
Qed.

(** One iteration keeps the invariant, never raises, and puts the step at
    the end. *)
Lemma group_step_wf groups step :
  groups_wf groups →
  ∃ groups', group_step groups (length (flatten groups)) step = Ok groups'
    ∧ groups_wf groups'
    ∧ flatten groups' = flatten groups ++ [step].
Proof.
  intros Hwf. destruct Hwf as [|before g Hwf Hne Hnum].
  - rewrite group_step_nil. eexists. split; [done|]. split.
    + by apply (groups_wf_snoc [] _).
    + done.
  - destruct g as [ty members k]. simpl in *.
    destruct members as [|first rest]; [done|].
    rewrite group_step_snoc. eexists. split; [done|].
    case_bool_decide.
    + split.
      * by apply groups_wf_snoc.
      * rewrite !flatten_snoc. simpl. by rewrite <- (assoc_L (++)).
    + split.
      * rewrite snoc_two.
        apply groups_wf_snoc; [by apply groups_wf_snoc | done |].
        simpl. by rewrite !flatten_snoc.
      * by rewrite snoc_two, !flatten_snoc.
Qed.

Lemma group_loop_wf steps : ∀ groups,
  groups_wf groups →
  ∃ groups', group_loop groups (length (flatten groups)) steps = Ok groups'
    ∧ groups_wf groups'
    ∧ flatten groups' = flatten groups ++ steps.
Proof.
  induction steps as [|step rest IH]; intros groups Hwf; simpl.
  - exists groups. by rewrite app_nil_r.
  - destruct (group_step_wf groups step Hwf) as (groups1 & -> & Hwf1 & Hflat1).
    simpl. destruct (IH groups1 Hwf1) as (groups' & Hloop & Hwf' & Hflat').
    exists groups'. rewrite Hflat1, length_app in Hloop. simpl in Hloop.
    replace (length (flatten groups) + 1) with (S (length (flatten groups)))
      in Hloop by lia.
    split; [done|]. split; [done|].
    by rewrite Hflat', Hflat1, <- (assoc_L (++)).
Qed.

Lemma groups_wf_lookup groups :
  groups_wf groups →
  ∀ i g, groups !! i = Some g →
    group_steps g ≠ [] ∧ group_step_num g = length (flatten (take i groups)).
Proof.
  induction 1 as [|groups g' Hwf IH Hne Hnum]; intros i g Hi; [done|].
  destruct (decide (i < length groups)) as [Hlt|Hge].
  - rewrite lookup_app_l in Hi by done.
    rewrite take_app_le by lia. by apply IH.
  - rewrite lookup_app_r in Hi by lia.
    destruct (i - length groups) as [|?] eqn:Hd; [|done].
    simplify_eq/=. assert (i = length groups) as -> by lia.
    by rewrite take_app_length.
Qed.

Lemma append_to_last_elem groups step g :
  g ∈ groups →
  ∃ g', g' ∈ append_to_last groups step
    ∧ group_step_num g' = group_step_num g
    ∧ group_steps g `prefix_of` group_steps g'.
Proof.
  intros [j Hj]%list_elem_of_lookup. unfold append_to_last.
  destruct (decide (length groups - 1 = j)) as [->|Hne].
  - eexists. split.
    + apply list_elem_of_lookup. eexists.
      by rewrite list_lookup_alter_eq, Hj.
    + simpl. split; [done | by apply prefix_app_r].
  - exists g. split; [|done].
    apply list_elem_of_lookup. exists j. by rewrite list_lookup_alter_ne.
Qed.

(** An iteration only grows groups: two adjacent members stay adjacent
    members. *)
Lemma group_step_keeps groups step_num step groups' i s1 s2 :
  group_step groups step_num step = Ok groups' →
  adjacent_in groups i s1 s2 → adjacent_in groups' i s1 s2.
Proof.
  unfold group_step. intros Hstep (g & k & Hin & Hk & H1 & H2).
  destruct (joins_last_group groups step) as [[|]|]; simplify_eq/=.
  - destruct (append_to_last_elem groups step g Hin) as (g' & Hin' & Hnum & Hpre).
    exists g', k. rewrite Hnum. split; [done|]. split; [done|].
    split; by eapply prefix_lookup_Some.
  - exists g, k. split; [|done]. apply elem_of_app. by left.
Qed.

Lemma group_loop_keeps steps : ∀ groups step_num groups' i s1 s2,
  group_loop groups step_num steps = Ok groups' →
  adjacent_in groups i s1 s2 → adjacent_in groups' i s1 s2.
Proof.
  induction steps as [|step rest IH]; intros groups n groups' i s1 s2; simpl.
  - by intros [= ->].
  - destruct (group_step groups n step) as [groups1|] eqn:Hstep; [|done].
    simpl. intros Hloop Hadj. eapply IH; [done|].
    by eapply group_step_keeps.
Qed.

Lemma group_loop_app steps1 steps2 : ∀ groups step_num,
  group_loop groups step_num (steps1 ++ steps2)
  = rbind (group_loop groups step_num steps1)
      (λ groups', group_loop groups' (step_num + length steps1) steps2).
Proof.
  induction steps1 as [|step rest IH]; intros groups n; simpl.
  - by rewrite Nat.add_0_r.
  - destruct (group_step groups n step) as [groups1|]; simpl; [|done].
    rewrite IH. by replace (S n + length rest) with (n + S (length rest)) by lia.
Qed.

(** After an iteration the step is the last member of the last group, and
    that group has the type of the step and starts with a step of the same
    jobconf. *)
Lemma group_step_last groups step :
  groups_wf groups →
  ∃ before first rest k,
    group_step groups (length (flatten groups)) step
    = Ok (before ++ [mkGroup (step_type step) (first :: rest) k])
    ∧ step_jobconf first = step_jobconf step
    ∧ last (first :: rest) = Some step.
Proof.
  intros Hwf. destruct Hwf as [|before g Hwf Hne Hnum].
  - rewrite group_step_nil. by exists [], step, [], 0.
  - destruct g as [ty members k]. simpl in *.
    destruct members as [|first rest]; [done|].
    rewrite group_step_snoc. case_bool_decide as Hc.
    + destruct Hc as (-> & <- & ->).
      exists before, first, (rest ++ [step]), k. split; [done|]. split; [done|].
      exact (last_snoc step (first :: rest)).
    + eexists (before ++ [_]), step, [], _. by rewrite snoc_two.
Qed.

(** ** The harness arguments *)

(** The argument list of a streaming step, part by part. *)
Lemma spark_script_args_streaming ext r step_num last_step_num step cls :
  _steps r !! step_num = Some step →
  step_type step = "streaming" →
  _mrjob_cls r = Some cls →
  _spark_script_args ext r step_num last_step_num
  = Ok ([AStr (_job_script_module_name ext r +:+ "." +:+ cls);
         AStr (str_join "," (_step_input_uris ext step_num));
         AStr (_step_output_uri ext (default step_num last_step_num))]
        ++ range_part r step_num (default step_num last_step_num)
        ++ job_args_part ext
        ++ (if truthy (compress_conf ext step_num)
               && negb (bool_decide (compress_conf ext step_num = Some "false"))
               && truthy (codec_conf ext step_num)
            then [AStr "--compression-codec";
                  AStr (default EmptyString (codec_conf ext step_num))]
            else [])).
Proof.
  intros Hstep Hty Hcls.
  unfold _spark_script_args, _get_step, range_part, job_args_part,
    compress_conf, codec_conf.
  rewrite Hstep. simpl. rewrite bool_decide_eq_true_2 by done. simpl.
  rewrite Hcls. simpl. f_equal.
  destruct (truthy _ && negb _ && truthy _);
    destruct (_mr_job_extra_args ext);
    destruct (negb (bool_decide (step_num = 0) && _));
    simpl; by rewrite ?app_nil_r.
Qed.

(** ** Claims about [_group_steps] *)

(** C3: [_group_steps] returns, for every step sequence, a partition of it:
    the members of the groups, concatenated in order, are the original
    sequence, and the starting ordinal a group records is the position of
    its first member in that sequence. *)
Theorem group_steps_partition (steps : list Step) :
  ∃ groups, _group_steps steps = Ok groups
    ∧ flatten groups = steps
    ∧ ∀ i g, groups !! i = Some g →
        group_step_num g = length (flatten (take i groups))
        ∧ ∃ first, head (group_steps g) = Some first
                   ∧ steps !! group_step_num g = Some first.
Proof.
  destruct (group_loop_wf steps [] groups_wf_nil) as (groups & Hloop & Hwf & Hflat).
  exists groups. split; [done|]. split; [done|].
  intros i g Hi.
  destruct (groups_wf_lookup groups Hwf i g Hi) as [Hne Hnum].
  split; [done|].
  destruct (group_steps g) as [|first rest] eqn:Hsteps; [done|].
  exists first. split; [done|].
  simpl in Hflat. rewrite <- Hflat, Hnum.
  rewrite <- (take_drop_middle groups i g Hi) at 2.
  unfold flatten at 2. rewrite fmap_app, concat_app. simpl. rewrite Hsteps.
  fold (flatten (take i groups)).
  by rewrite lookup_app_r, Nat.sub_diag by lia.
Qed.


(** C10: two adjacent streaming steps that both have no jobconf are members
    of one group, next to each other: [step.get('jobconf')] is [None] for
    both, and the first of the two agrees with the first member of its group. *)
Theorem adjacent_steps_without_jobconf_share_group
    (before : list Step) (s1 s2 : Step) (after : list Step) :
  step_type s1 = "streaming" → step_type s2 = "streaming" →
  step_jobconf s1 = None → step_jobconf s2 = None →
  ∃ groups, _group_steps (before ++ s1 :: s2 :: after) = Ok groups
    ∧ adjacent_in groups (length before) s1 s2.
Proof.
  intros Ht1 Ht2 Hj1 Hj2. unfold _group_steps.
  destruct (group_loop_wf (before ++ s1 :: s2 :: after) [] groups_wf_nil)
    as (groups & Hloop & _ & _).
  exists groups. split; [done|]. simpl in Hloop.
  rewrite group_loop_app in Hloop.
  destruct (group_loop_wf before [] groups_wf_nil) as (gs0 & Hloop0 & Hwf0 & Hflat0).
  simpl in Hloop0, Hflat0. rewrite Hloop0 in Hloop. simpl in Hloop.
  subst before.
  destruct (group_step_wf gs0 s1 Hwf0) as (gs1 & Hstep1 & Hwf1 & Hflat1).
  destruct (group_step_last gs0 s1 Hwf0) as (pre & first & rest & k & Hstep1' & Hjc & Hlast).
  rewrite Hstep1 in Hstep1'. injection Hstep1' as ->.
  rewrite Hstep1 in Hloop. simpl in Hloop.
  rewrite group_step_snoc in Hloop.
  rewrite bool_decide_eq_true_2 in Hloop by (by rewrite Hj2, Hjc, Hj1).
  simpl in Hloop.
  eapply group_loop_keeps; [exact Hloop|].
  apply last_Some in Hlast as [members Hmem].
  exists (mkGroup (step_type s1) (first :: rest ++ [s2]) k), (length members).
  split; [apply elem_of_app; right; apply list_elem_of_singleton; done|].
  simpl. rewrite app_comm_cons, Hmem.
  split.
  - inversion Hwf1 as [Hnil|gs g' Hwf' Hne' Hnum' Heq]; [by destruct pre|].
    apply app_inj_tail in Heq as [-> ->]. simpl in Hnum'.
    rewrite flatten_snoc in Hflat1. simpl in Hflat1.
    rewrite Hmem in Hflat1.
    apply (f_equal length) in Hflat1. rewrite !length_app in Hflat1.
    simpl in Hflat1. lia.
  - split.
    + rewrite lookup_app_l; [by apply list_lookup_middle|].
      rewrite length_app. simpl. lia.
    + assert (length rest = length members) as <-.
      { apply (f_equal length) in Hmem. rewrite length_app in Hmem.
        simpl in Hmem. lia. }
      by rewrite lookup_app_r, Nat.sub_diag by lia.
Qed.

(** ** Claims about [_spark_script_args] *)

Lemma truthy_Some (o : option string) :
  truthy o = true ↔ ∃ v, o = Some v ∧ v ≠ EmptyString.
Proof.
  destruct o as [v|]; simpl.
  - unfold truthy_str. rewrite negb_true_iff, String.eqb_neq. split.
    + intros Hv. by exists v.
    + by intros (v' & [= <-] & Hv).
  - split; [done | by intros (v & ? & _)].
Qed.

Lemma codec_test_true ext step_num :
  truthy (compress_conf ext step_num)
  && negb (bool_decide (compress_conf ext step_num = Some "false"))
  && truthy (codec_conf ext step_num) = true
  ↔ compress_conf_not_false ext step_num ∧ ∃ codec, codec_specified ext step_num codec.
Proof.
  rewrite !andb_true_iff, negb_true_iff, !truthy_Some, bool_decide_eq_false.
  unfold compress_conf_not_false, codec_specified. split.
  - intros [[(v & Hv & Hne) Hfalse] (codec & Hc & Hcne)]. split.
    + exists v. split; [done|]. split; [done|]. intros ->. by apply Hfalse.
    + by exists codec.
  - intros [(v & Hv & Hne & Hfalse) (codec & Hc & Hcne)]. split; [split|].
    + by exists v.
    + rewrite Hv. by intros [= ->].
    + by exists codec.
Qed.

Lemma dotted_name_has_dot (a b : string) :
  In "."%char (String.list_ascii_of_string (a +:+ "." +:+ b)).
Proof. induction a as [|c a IH]; simpl; auto. Qed.

Lemma dotted_name_not_codec_flag (a b : string) :
  a +:+ "." +:+ b ≠ "--compression-codec".
Proof.
  intros Heq. pose proof (dotted_name_has_dot a b) as Hin.
  rewrite Heq in Hin. simpl in Hin.
  repeat (destruct Hin as [Hin|Hin]; [discriminate Hin|]). done.
Qed.

Lemma codec_flag_not_in_range_part r step_num last_step_num :
  AStr "--compression-codec" ∉ range_part r step_num last_step_num.
Proof.
  unfold range_part. destruct (negb _); [|by apply not_elem_of_nil].
  rewrite !not_elem_of_cons. repeat split; try done. apply not_elem_of_nil.
Qed.

(** C5: for a streaming step the argument list starts with the job class
    qualified by the module name made from the job key, then the input URIs
    of the first step of the group joined by commas, then the output URI of
    the last step of the group. *)
Theorem spark_script_args_positional ext r step_num last_step_num step cls :
  _steps r !! step_num = Some step →
  step_type step = "streaming" →
  _mrjob_cls r = Some cls →
  ∃ options,
    _spark_script_args ext r step_num (Some last_step_num)
    = Ok (AStr (_job_script_module_name ext r +:+ "." +:+ cls)
          :: AStr (str_join "," (_step_input_uris ext step_num))
          :: AStr (_step_output_uri ext last_step_num)
          :: options).
Proof.
  intros Hstep Hty Hcls.
  rewrite (spark_script_args_streaming ext r step_num (Some last_step_num) step cls)
    by done.
  simpl. eauto.
Qed.

Lemma spark_script_args_positional_witness :
  ∃ options,
    _spark_script_args (demo_ext [] ∅ (λ _, 0%Z))
      (demo_runner [streaming_step None; streaming_step None; streaming_step None])
      0 (Some 1)
    = Ok (AStr "mr_word_count_user_20190101_000000.MRWordCount"
          :: AStr "in/a,in/b" :: AStr "tmp/step-output/0001" :: options).
Proof.
  destruct (spark_script_args_positional (demo_ext [] ∅ (λ _, 0%Z))
              (demo_runner [streaming_step None; streaming_step None; streaming_step None])
              0 1 (streaming_step None) "MRWordCount") as [options Hargs];
    [reflexivity | reflexivity | reflexivity |].
  exists options. exact Hargs.
Defined.

(** C2, as the code has it: for a streaming step, [--compression-codec] is
    in the argument list exactly when the value of
    [mapreduce.map.output.compress] is set, not empty and not the string
    [false], and the value of [mapreduce.map.output.compress.codec] is set and
    not empty; it is then the last flag, followed by the codec.  (The flag is
    recognised by its text, so the input and output URIs and the quoted
    passthrough arguments are taken to differ from it.) *)
Theorem compression_codec_flag ext r step_num last_step_num step cls :
  _steps r !! step_num = Some step →
  step_type step = "streaming" →
  _mrjob_cls r = Some cls →
  str_join "," (_step_input_uris ext step_num) ≠ "--compression-codec" →
  _step_output_uri ext (default step_num last_step_num) ≠ "--compression-codec" →
  cmd_line ext (_mr_job_extra_args ext) ≠ "--compression-codec" →
  ∃ args,
    _spark_script_args ext r step_num last_step_num = Ok args
    ∧ (AStr "--compression-codec" ∈ args
       ↔ compress_conf_not_false ext step_num
         ∧ ∃ codec, codec_specified ext step_num codec)
    ∧ ∀ codec, compress_conf_not_false ext step_num →
        codec_specified ext step_num codec →
        ∃ before, args = before ++ [AStr "--compression-codec"; AStr codec].
Proof.
  intros Hstep Hty Hcls Hin Hout Hjob.
  rewrite (spark_script_args_streaming ext r step_num last_step_num step cls)
    by done.
  eexists. split; [done|].
  destruct (truthy (compress_conf ext step_num)
            && negb (bool_decide (compress_conf ext step_num = Some "false"))
            && truthy (codec_conf ext step_num)) eqn:Htest.
  - apply codec_test_true in Htest. split.
    + split; [done|]. intros _.
      rewrite !elem_of_app. do 3 right. apply elem_of_cons. by left.
    + intros codec _ [Hcodec _]. rewrite Hcodec. simpl.
      exists ([AStr (_job_script_module_name ext r +:+ "." +:+ cls);
               AStr (str_join "," (_step_input_uris ext step_num));
               AStr (_step_output_uri ext (default step_num last_step_num))]
              ++ range_part r step_num (default step_num last_step_num)
              ++ job_args_part ext).
      by rewrite <- !app_assoc.
  - assert (¬ (compress_conf_not_false ext step_num
               ∧ ∃ codec, codec_specified ext step_num codec)) as Hno.
    { intros Hc. apply codec_test_true in Hc. congruence. }
    split.
    + split; [|done]. rewrite app_nil_r, !elem_of_app.
      intros [Hpos|[Hrange|Hargs]].
      * rewrite !elem_of_cons in Hpos.
        destruct Hpos as [[= Heq]|[[= Heq]|[[= Heq]|Hnil]]].
        -- symmetry in Heq. by apply dotted_name_not_codec_flag in Heq.
        -- by destruct Hin.
        -- by destruct Hout.
        -- by apply elem_of_nil in Hnil.
      * by apply codec_flag_not_in_range_part in Hrange.
      * unfold job_args_part in Hargs.
        destruct (_mr_job_extra_args ext) as [|a l] eqn:Hl.
        -- by apply elem_of_nil in Hargs.
        -- rewrite !elem_of_cons in Hargs.
           destruct Hargs as [[= Heq]|[[= Heq]|Hnil]].
           ++ by destruct Hjob.
           ++ by apply elem_of_nil in Hnil.
    + intros codec He Hc. destruct Hno. eauto.
Qed.

Lemma compression_codec_flag_witness :
  ∃ args,
    _spark_script_args
      (demo_ext [] {[ "mapreduce.map.output.compress" := "true";
                      "mapreduce.map.output.compress.codec" := "GzipCodec" ]}
         (λ _, 0%Z))
      (demo_runner [streaming_step None]) 0 None = Ok args
    ∧ AStr "--compression-codec" ∈ args.
Proof.
  destruct (compression_codec_flag
              (demo_ext [] {[ "mapreduce.map.output.compress" := "true";
                              "mapreduce.map.output.compress.codec" := "GzipCodec" ]}
                 (λ _, 0%Z))
              (demo_runner [streaming_step None]) 0 None
              (streaming_step None) "MRWordCount")
    as (args & Hargs & Hflag & _); [reflexivity | reflexivity | reflexivity
                                   | discriminate | discriminate | discriminate |].
  exists args. split; [exact Hargs|].
  apply Hflag. split.
  - exists "true". split; [vm_compute; reflexivity|]. split; discriminate.
  - exists "GzipCodec". split; [vm_compute; reflexivity | discriminate].
Defined.

(** C2, as the claim has it, fails: a jobconf that disables compression with
    the value [False] and names a codec still gets the flag. *)
Lemma compression_codec_flag_counterexample :
  spec_compression_disabled
    (demo_ext [] {[ "mapreduce.map.output.compress" := "False";
                    "mapreduce.map.output.compress.codec" := "GzipCodec" ]}
       (λ _, 0%Z)) 0
  ∧ _spark_script_args
      (demo_ext [] {[ "mapreduce.map.output.compress" := "False";
                      "mapreduce.map.output.compress.codec" := "GzipCodec" ]}
         (λ _, 0%Z))
      (demo_runner [streaming_step None]) 0 None
    = Ok [AStr "mr_word_count_user_20190101_000000.MRWordCount";
          AStr "in/a,in/b"; AStr "tmp/step-output/0000";
          AStr "--compression-codec"; AStr "GzipCodec"].
Proof.
  split.
  - exists "False". split; vm_compute; reflexivity.
  - vm_compute. reflexivity.
Qed.

(** C1: for a group of streaming steps that is not the whole job, the claim
    asks for [--first-step-num N] and [--last-step-num M] with the first and
    the last step of the group.  The code emits [--first-step-num N] and then
    the flag [--last_step_num] (with underscores) carrying N again: for the
    group of steps 0 to 1 of a job of three steps there is no
    [--last-step-num] flag and no 1 in the arguments.  For the group of steps
    0 to 2, the whole job, neither flag is emitted. *)
Theorem step_range_flags_of_sub_range :
  _spark_script_args (demo_ext [] ∅ (λ _, 0%Z))
    (demo_runner [streaming_step None; streaming_step None; streaming_step None])
    0 (Some 1)
  = Ok [AStr "mr_word_count_user_20190101_000000.MRWordCount";
        AStr "in/a,in/b"; AStr "tmp/step-output/0001";
        AStr "--first-step-num"; AInt 0; AStr "--last_step_num"; AInt 0]
  ∧ _spark_script_args (demo_ext [] ∅ (λ _, 0%Z))
      (demo_runner [streaming_step None; streaming_step None; streaming_step None])
      0 (Some 2)
    = Ok [AStr "mr_word_count_user_20190101_000000.MRWordCount";
          AStr "in/a,in/b"; AStr "out"].
Proof. split; vm_compute; reflexivity. Qed.

(** ** Claims about running steps *)

(** What [_run_step_on_spark] does, by the result of building the arguments
    and the return code of the subprocess. *)
Lemma run_step_on_spark_unfold ext r step step_num last_step_num w :
  _run_step_on_spark ext r step step_num last_step_num w
  = match _args_for_spark_step ext step_num last_step_num with
    | Raise e => (Raise e, w)
    | Ok args =>
        let env := step_env ext step_num in
        let returncode := spark_submit_returncode ext w args env in
        (if bool_decide (returncode = 0%Z) then Ok tt
         else Raise (StepFailedException
                       (CalledProcessError_str ext returncode args)
                       step_num last_step_num (_num_steps r)),
         w ++ [EvSubmit args env returncode])
    end.
Proof.
  unfold _run_step_on_spark, bind, lift, _run_spark_submit.
  destruct (_args_for_spark_step ext step_num last_step_num) as [args|e]; [|done].
  simpl. by case_bool_decide; case_bool_decide.
Qed.




Lemma for_each_cons {A} (x : A) (rest : list A) (body : A → M unit) w :
  for_each (x :: rest) body w
  = match body x w with
    | (Ok _, w') => for_each rest body w'
    | (Raise e, w') => (Raise e, w')
    end.
Proof. done. Qed.

Lemma run_group_unfold ext r g w :
  group_steps g ≠ [] →
  run_group ext r g w
  = match _args_for_spark_step ext (group_step_num g) (Some (last_step_num_of g)) with
    | Raise e => (Raise e, w)
    | Ok args =>
        let env := step_env ext (group_step_num g) in
        let returncode := spark_submit_returncode ext w args env in
        (if bool_decide (returncode = 0%Z) then Ok tt
         else Raise (StepFailedException
                       (CalledProcessError_str ext returncode args)
                       (group_step_num g) (Some (last_step_num_of g))
                       (_num_steps r)),
         w ++ [EvSubmit args env returncode])
    end.
Proof.
  intros Hne. unfold run_group.
  destruct (group_steps g) as [|first rest] eqn:Hsteps; [done|].
  rewrite run_step_on_spark_unfold. unfold last_step_num_of. by rewrite Hsteps.
Qed.

Lemma for_each_run_group ext r groups :
  Forall (λ g, group_steps g ≠ []) groups →
  ∀ w, ∃ evs,
    snd (for_each groups (run_group ext r) w) = w ++ evs
    ∧ sequential_run ext r groups (fst (for_each groups (run_group ext r) w)) evs.
Proof.
  induction 1 as [|g groups Hne Hall IH]; intros w.
  - exists []. simpl. split; [by rewrite app_nil_r|].
    exists []. split; [done|]. split; [constructor|]. split; [done|].
    by split.
  - rewrite for_each_cons, run_group_unfold by done.
    destruct (_args_for_spark_step ext (group_step_num g)
                (Some (last_step_num_of g))) as [args|e] eqn:Hargs.
    + simpl. set (env := step_env ext (group_step_num g)).
      set (rc := spark_submit_returncode ext w args env).
      assert (launch_of ext g (EvSubmit args env rc)) as Hlaunch.
      { by exists args, rc. }
      case_bool_decide as Hrc.
      * destruct (IH (w ++ [EvSubmit args env rc]))
          as (evs & Hsnd & launched & Hpre & Hl & Hbefore & Hres).
        exists (EvSubmit args env rc :: evs).
        split; [by rewrite Hsnd, <- app_assoc|].
        exists (g :: launched).
        split; [by apply prefix_cons|].
        split; [by constructor|].
        split.
        { intros [|i] ev Hi Hlt; simpl in *.
          - injection Hi as <-. simpl. by rewrite Hrc.
          - apply (Hbefore i ev Hi). lia. }
        destruct (fst (for_each groups (run_group ext r)
                         (w ++ [EvSubmit args env rc]))) as [[]|e].
        -- destruct Hres as [-> Hok]. split; [done|].
           constructor; [simpl; by rewrite Hrc | done].
        -- destruct Hres as [(g' & args' & env' & rc' & Hg' & Hev' & Hne' & ->)
                            |(g' & Hg' & Hargs' & Hok)].
           ++ left. exists g', args', env', rc'.
              split; [by rewrite last_cons, Hg'|].
              split; [by rewrite last_cons, Hev'|]. done.
           ++ right. exists g'. split; [done|]. split; [done|].
              constructor; [simpl; by rewrite Hrc | done].
      * exists [EvSubmit args env rc]. simpl. split; [done|].
        exists [g]. split; [by apply prefix_cons, prefix_nil|].
        split; [by repeat constructor|].
        split; [intros i ev _ Hlt; simpl in Hlt; lia|].
        left. by exists g, args, env, rc.
    + exists []. simpl. split; [by rewrite app_nil_r|].
      exists []. split; [apply prefix_nil|]. split; [constructor|].
      split; [done|]. right. by exists g.
Qed.

Lemma groups_wf_nonempty groups :
  groups_wf groups → Forall (λ g, group_steps g ≠ []) groups.
Proof.
  induction 1 as [|groups g Hwf IH Hne Hnum]; [constructor|].
  apply Forall_app. split; [done|]. by constructor.
Qed.


(** ** Claims about validation and staging *)

Lemma check_commands_raises step_num mrcs mrc sub :
  (mrc, sub) ∈ mrcs → runs_command sub →
  ∃ msg, check_commands step_num mrcs = Raise (NotImplementedError msg).
Proof.
  intros Hin (d & -> & Hcmd).
  induction mrcs as [|[mrc' sub'] rest IH]; [by apply elem_of_nil in Hin|].
  simpl. destruct sub' as [d'|].
  - destruct (bool_decide (d' ≠ ∅)
              && (bool_decide (is_Some (d' !! "command"))
                  || bool_decide (is_Some (d' !! "pre_filter")))) eqn:Htest;
      [eauto|].
    apply elem_of_cons in Hin as [[= <- <-]|Hin]; [|by apply IH].
    exfalso. apply andb_false_iff in Htest as [Hempty|Hkeys].
    + apply bool_decide_eq_false in Hempty.
      apply dec_stable in Hempty. subst d.
      destruct Hcmd as [[v Hv]|[v Hv]]; by rewrite lookup_empty in Hv.
    + apply orb_false_iff in Hkeys as [Hc Hp].
      apply bool_decide_eq_false in Hc, Hp. by destruct Hcmd.
  - apply elem_of_cons in Hin as [[= _ ?]|Hin]. by apply IH.
Qed.

(** [_check_step] rejects an unsupported step, whatever the superclass
    check says of it. *)
Lemma check_step_raises ext mrjob_cls step step_num :
  unsupported_step step →
  ∃ e, _check_step ext mrjob_cls step step_num = Raise e
    ∧ (super_check_step ext step step_num = Ok tt →
       (∃ msg, e = NotImplementedError msg)
       ∨ (mrjob_cls = None ∧ ∃ msg, e = ValueError msg)).
Proof.
  intros Hbad. unfold _check_step.
  destruct (super_check_step ext step step_num) as [[]|e]; cbn [rbind];
    [|by exists e].
  destruct (step_input_manifest step) eqn:Hmanifest; [eauto 6|].
  destruct Hbad as [?|[Hty Hcmd]]; [congruence|].
  rewrite bool_decide_eq_true_2 by done.
  destruct mrjob_cls as [cls|]; [|eauto 8].
  assert (∃ mrc sub,
            (mrc, sub) ∈ [("mapper", step_mapper step);
                          ("combiner", step_combiner step);
                          ("reducer", step_reducer step)]
            ∧ runs_command sub) as (mrc & sub & Hin & Hsub).
  { destruct Hcmd as [?|[?|?]]; do 2 eexists; (split; [|done]);
      rewrite !elem_of_cons; auto. }
  destruct (check_commands_raises step_num _ mrc sub Hin Hsub) as [msg ->].
  eauto 6.
Qed.

Lemma super_init_check_steps_raises ext mrjob_cls steps step : ∀ step_num,
  step ∈ steps → unsupported_step step →
  ∃ e, super_init_check_steps ext mrjob_cls step_num steps = Raise e.
Proof.
  induction steps as [|step' rest IH]; intros step_num Hin Hbad;
    [by apply elem_of_nil in Hin|].
  simpl. apply elem_of_cons in Hin as [<-|Hin].
  - destruct (check_step_raises ext mrjob_cls step step_num Hbad) as (e & -> & _).
    by exists e.
  - destruct (_check_step ext mrjob_cls step' step_num) as [[]|e]; simpl;
      [by apply IH | by exists e].
Qed.

(** C8: [_check_step] raises for every step that sets [input_manifest] and
    for every streaming step one of whose mapper, combiner and reducer has a
    [command] or a [pre_filter]; a job with such a step fails while the
    runner is constructed, so that nothing is staged and nothing is
    submitted for any of its steps. *)
Theorem check_step_rejects_unsupported ext mrjob_cls step step_num :
  unsupported_step step →
  (∃ e, _check_step ext mrjob_cls step step_num = Raise e
     ∧ (super_check_step ext step step_num = Ok tt →
        (∃ msg, e = NotImplementedError msg)
        ∨ (mrjob_cls = None ∧ ∃ msg, e = ValueError msg)))
  ∧ ∀ kw w, step ∈ kw_steps kw →
      ∃ e, __init__ ext mrjob_cls kw = Raise e
        ∧ make_and_run ext mrjob_cls kw w = (Raise e, w).
Proof.
  intros Hbad. split; [by apply check_step_raises|].
  intros kw w Hin.
  destruct (super_init_check_steps_raises ext mrjob_cls (kw_steps kw) step 0
              Hin Hbad) as [e He].
  exists e. unfold make_and_run, bind, lift, __init__. by rewrite He.
Qed.

Lemma check_step_rejects_unsupported_witness :
  ∃ e, _check_step (demo_ext [] ∅ (λ _, 0%Z)) (Some "MRWordCount")
         (mkStep "streaming" None false
            (Some {[ "type" := "command"; "command" := "cat" ]}) None None) 0
       = Raise e.
Proof.
  destruct (check_step_rejects_unsupported (demo_ext [] ∅ (λ _, 0%Z))
              (Some "MRWordCount")
              (mkStep "streaming" None false
                 (Some {[ "type" := "command"; "command" := "cat" ]}) None None) 0)
    as [(e & He & _) _].
  - right. split; [reflexivity|]. left. eexists. split; [reflexivity|].
    left. exists "cat". vm_compute. reflexivity.
  - exists e. exact He.
Defined.

Lemma for_each_put_events ext (items : list (string * string)) : ∀ w,
  ∃ k res,
    for_each items (λ '(src_path, uri), fs_put ext src_path uri) w
    = (res, w ++ ((λ '(src_path, uri), EvPut src_path uri) <$> take k items))
    ∧ (res = Ok tt → k = length items).
Proof.
  induction items as [|[src uri] rest IH]; intros w.
  - exists 0, (Ok tt). simpl. by rewrite app_nil_r.
  - rewrite for_each_cons. unfold fs_put at 1.
    destruct (fs_put_raises ext w src uri) as [e|].
    + by exists 1, (Raise e).
    + destruct (IH (w ++ [EvPut src uri])) as (k & res & Hrun & Hlen).
      exists (S k), res. rewrite Hrun. simpl. split.
      * by rewrite <- app_assoc.
      * intros Hok. by rewrite Hlen.
Qed.

Lemma init_upload_mgr ext mrjob_cls kw r :
  __init__ ext mrjob_cls kw = Ok r →
  _upload_mgr r
  = if is_uri ext (_spark_tmp_dir r) then
      Some (mkUploadDirManager
              (posixpath_join (_spark_tmp_dir r) ["files"; EmptyString]) [])
    else None.
Proof.
  unfold __init__.
  destruct (super_init_check_steps ext mrjob_cls 0 (kw_steps kw)); [|done].
  simpl. by intros [= <-].
Qed.

(** C9: when the temporary directory of the run is not a URI, the
    constructor makes no upload manager, adding the job files changes
    nothing, and [_upload_local_files] issues no filesystem call and
    returns; when it is a URI, the staging issues [mkdir] of the prefix of
    the upload manager and then one [put] per recorded file, in order, up to
    the first call that raises.  So a filesystem call of the staging phase
    implies that the temporary directory is a URI. *)
Theorem upload_local_files_only_for_uri ext mrjob_cls kw r :
  __init__ ext mrjob_cls kw = Ok r →
  (is_uri ext (_spark_tmp_dir r) = false →
     _upload_mgr r = None
     ∧ ∀ paths w,
         _add_job_files_for_upload ext r paths = r
         ∧ _upload_local_files ext r w = (Ok tt, w))
  ∧ (is_uri ext (_spark_tmp_dir r) = true →
     ∀ paths w, ∃ m k,
       _upload_mgr (_add_job_files_for_upload ext r paths) = Some m
       ∧ snd (_upload_local_files ext (_add_job_files_for_upload ext r paths) w)
         = w ++ EvMkdir (prefix m)
               :: ((λ '(src_path, uri), EvPut src_path uri)
                     <$> take k (path_to_uri m))
       ∧ (fst (_upload_local_files ext (_add_job_files_for_upload ext r paths) w)
          = Ok tt → k = length (path_to_uri m)))
  ∧ (∀ paths w,
       snd (_upload_local_files ext (_add_job_files_for_upload ext r paths) w) ≠ w →
       is_uri ext (_spark_tmp_dir r) = true).
Proof.
  intros Hinit. apply init_upload_mgr in Hinit.
  assert (is_uri ext (_spark_tmp_dir r) = false →
          _upload_mgr r = None
          ∧ ∀ paths w,
              _add_job_files_for_upload ext r paths = r
              ∧ _upload_local_files ext r w = (Ok tt, w)) as Hlocal.
  { intros Hno. rewrite Hno in Hinit. split; [done|]. intros paths w.
    unfold _add_job_files_for_upload, _upload_local_files. by rewrite Hinit. }
  split; [done|]. split.
  - intros Hyes paths w. rewrite Hyes in Hinit.
    unfold _add_job_files_for_upload. rewrite Hinit. simpl.
    eexists. unfold _upload_local_files. simpl.
    set (m := foldl (upload_mgr_add ext) _ paths).
    unfold bind, fs_mkdir.
    destruct (fs_mkdir_raises ext w (prefix m)) as [e|].
    + by exists 0.
    + destruct (for_each_put_events ext (path_to_uri m) (w ++ [EvMkdir (prefix m)]))
        as (k & res & Hrun & Hlen).
      exists k. split; [done|]. rewrite Hrun. simpl. split; [|done].
      by rewrite <- app_assoc.
  - intros paths w Hevents.
    destruct (is_uri ext (_spark_tmp_dir r)) eqn:Huri; [done|].
    destruct (Hlocal eq_refl) as [_ Hsame].
    destruct (Hsame paths w) as [Hadd Hup].
    by rewrite Hadd, Hup in Hevents.
Qed.

Lemma upload_local_files_only_for_uri_witness :
  _upload_mgr (demo_runner [streaming_step None]) = None
  ∧ _upload_local_files (demo_ext [] ∅ (λ _, 0%Z))
      (demo_runner [streaming_step None]) [] = (Ok tt, []).
Proof.
  assert (__init__ (demo_ext [] ∅ (λ _, 0%Z)) (Some "MRWordCount")
            (mkKwargs "mr_word_count.user.20190101.000000" [streaming_step None]
               None None)
          = Ok (demo_runner [streaming_step None])) as Hinit
    by (vm_compute; reflexivity).
  destruct (upload_local_files_only_for_uri _ _ _ _ Hinit) as (Hlocal & _ & _).
  assert (is_uri (demo_ext [] ∅ (λ _, 0%Z))
            (_spark_tmp_dir (demo_runner [streaming_step None])) = false) as Hno
    by (vm_compute; reflexivity).
  destruct (Hlocal Hno) as [Hmgr Hsame].
  split; [exact Hmgr|]. exact (proj2 (Hsame [] [])).
Defined.

Lemma adjacent_steps_without_jobconf_share_group_witness :
  ∃ groups,
    _group_steps ([mkStep "spark" None false None None None]
                  ++ streaming_step None :: streaming_step None
                     :: [mkStep "spark" None false None None None])
    = Ok groups
    ∧ adjacent_in groups 1 (streaming_step None) (streaming_step None).
Proof.
  exact (adjacent_steps_without_jobconf_share_group
           [mkStep "spark" None false None None None]
           (streaming_step None) (streaming_step None)
           [mkStep "spark" None false None None None]
           eq_refl eq_refl eq_refl eq_refl).
Defined.

(** * Further properties *)

(** ** More on [_group_steps] *)

Lemma group_uniform_singleton ty step n :
  ty = step_type step → group_uniform (mkGroup ty [step] n).
Proof.
  intros ->. split; [|split]; simpl.
  - by intros s ->%list_elem_of_singleton.
  - lia.
  - by intros first s [= <-] ->%list_elem_of_singleton.
Qed.

Lemma group_uniform_append first rest k step :
  group_uniform (mkGroup "streaming" (first :: rest) k) →
  step_type step = "streaming" →
  step_jobconf step = step_jobconf first →
  group_uniform (mkGroup "streaming" (first :: rest ++ [step]) k).
Proof.
  intros (Hty & _ & Hjc) Hs Hj. simpl in *. split; [|split]; simpl.
  - intros s Hin. rewrite app_comm_cons in Hin.
    apply elem_of_app in Hin as [Hin| ->%list_elem_of_singleton]; auto.
  - done.
  - intros first' s [= <-] Hin. rewrite app_comm_cons in Hin.
    apply elem_of_app in Hin as [Hin| ->%list_elem_of_singleton]; auto.
Qed.

Lemma groups_inv_wf groups : groups_inv groups → groups_wf groups.
Proof. induction 1; by constructor. Qed.

(** One iteration keeps the stronger invariant. *)
Lemma group_step_inv groups step :
  groups_inv groups →
  ∃ groups', group_step groups (length (flatten groups)) step = Ok groups'
    ∧ groups_inv groups'.
Proof.
  intros Hinv. destruct Hinv as [|before g Hinv Hne Hnum Huni Hsep].
  - rewrite group_step_nil. eexists. split; [done|].
    apply (groups_inv_snoc [] _);
      [constructor | done | done | by apply group_uniform_singleton | done].
  - destruct g as [ty members k]. simpl in *.
    destruct members as [|first rest]; [done|].
    rewrite group_step_snoc. eexists. split; [done|].
    case_bool_decide as Hjoin.
    + destruct Hjoin as (-> & Hs & Hj).
      apply groups_inv_snoc; [done | done | done | |].
      * by apply group_uniform_append.
      * intros p Hp (Hpt & _ & Hpj). apply (Hsep p Hp).
        by split.
    + rewrite snoc_two.
      apply groups_inv_snoc; simpl.
      * by apply groups_inv_snoc.
      * done.
      * by rewrite !flatten_snoc.
      * by apply group_uniform_singleton.
      * intros p Hp (Hpt & Hst & Hpj). rewrite last_snoc in Hp.
        injection Hp as <-. simpl in *. apply Hjoin.
        unfold first_jobconf in Hpj. simpl in Hpj. by injection Hpj as ->.
Qed.

Lemma group_loop_inv steps : ∀ groups,
  groups_inv groups →
  ∃ groups', group_loop groups (length (flatten groups)) steps = Ok groups'
    ∧ groups_inv groups'.
Proof.
  induction steps as [|step rest IH]; intros groups Hinv; simpl.
  - by exists groups.
  - destruct (group_step_inv groups step Hinv) as (groups1 & Hstep & Hinv1).
    destruct (group_step_wf groups step (groups_inv_wf groups Hinv))
      as (groups1' & Hstep' & _ & Hflat1).
    rewrite Hstep in Hstep'. injection Hstep' as <-.
    rewrite Hstep. simpl.
    destruct (IH groups1 Hinv1) as (groups' & Hloop & Hinv').
    exists groups'. split; [|done].
    rewrite Hflat1, length_app in Hloop. simpl in Hloop.
    by replace (length (flatten groups) + 1) with (S (length (flatten groups)))
      in Hloop by lia.
Qed.

Lemma group_steps_inv steps :
  ∃ groups, _group_steps steps = Ok groups ∧ groups_inv groups.
Proof. exact (group_loop_inv steps [] groups_inv_nil). Qed.

Lemma groups_inv_uniform groups :
  groups_inv groups → Forall group_uniform groups.
Proof.
  induction 1; [constructor|]. apply Forall_app. split; [done|]. by constructor.
Qed.

Lemma groups_inv_separated groups :
  groups_inv groups →
  ∀ i g g', groups !! i = Some g → groups !! S i = Some g' → ¬ mergeable g g'.
Proof.
  induction 1 as [|groups g0 Hinv IH Hne Hnum Huni Hsep]; intros i g g' Hi Hi';
    [done|].
  destruct (decide (S i < length groups)) as [Hlt|Hge].
  - rewrite lookup_app_l in Hi, Hi' by lia. by eapply IH.
  - assert (S i = length groups) as Hlen.
    { apply lookup_lt_Some in Hi'. rewrite length_app in Hi'. simpl in Hi'. lia. }
    rewrite lookup_app_l in Hi by lia.
    rewrite Hlen, list_lookup_middle in Hi' by done. injection Hi' as <-.
    apply Hsep. rewrite last_lookup.
    by replace (pred (length groups)) with i by lia.
Qed.

(** X1: in the groups [_group_steps] returns, every member of a group has
    the type recorded for the group and the jobconf of the first member of
    the group. *)
Theorem group_steps_homogeneous (steps : list Step) :
  ∃ groups, _group_steps steps = Ok groups
    ∧ ∀ g, g ∈ groups →
        (∀ s, s ∈ group_steps g → step_type s = group_type g)
        ∧ (∀ first s, head (group_steps g) = Some first → s ∈ group_steps g →
             step_jobconf s = step_jobconf first).
Proof.
  destruct (group_steps_inv steps) as (groups & Hrun & Hinv).
  exists groups. split; [done|]. intros g Hin.
  apply groups_inv_uniform in Hinv.
  rewrite Forall_forall in Hinv. by destruct (Hinv g Hin) as (? & _ & ?).
Qed.

(** X2: a step that is not a streaming step is always alone in its group. *)
Theorem native_step_is_singleton_group (steps : list Step) :
  ∃ groups, _group_steps steps = Ok groups
    ∧ ∀ g s, g ∈ groups → s ∈ group_steps g → step_type s ≠ "streaming" →
        group_steps g = [s].
Proof.
  destruct (group_steps_inv steps) as (groups & Hrun & Hinv).
  exists groups. split; [done|]. intros g s Hin Hs Hty.
  apply groups_inv_uniform in Hinv.
  rewrite Forall_forall in Hinv. destruct (Hinv g Hin) as (Htype & Hlen & _).
  destruct (group_steps g) as [|s1 [|s2 rest]] eqn:Hsteps.
  - by apply elem_of_nil in Hs.
  - by apply list_elem_of_singleton in Hs as ->.
  - destruct Hty. rewrite (Htype s Hs). apply Hlen. simpl. lia.
Qed.

(** X3: the groups are maximal: two consecutive groups are never both
    streaming groups whose first members have the same jobconf. *)
Theorem group_steps_maximal (steps : list Step) :
  ∃ groups, _group_steps steps = Ok groups
    ∧ ∀ i g g' first first',
        groups !! i = Some g → groups !! S i = Some g' →
        head (group_steps g) = Some first → head (group_steps g') = Some first' →
        ¬ (group_type g = "streaming" ∧ group_type g' = "streaming"
           ∧ step_jobconf first' = step_jobconf first).
Proof.
  destruct (group_steps_inv steps) as (groups & Hrun & Hinv).
  exists groups. split; [done|].
  intros i g g' first first' Hi Hi' Hf Hf' (Ht & Ht' & Hj).
  apply (groups_inv_separated groups Hinv i g g' Hi Hi').
  split; [done|]. split; [done|]. unfold first_jobconf.
  destruct (group_steps g) as [|? ?]; [done|].
  destruct (group_steps g') as [|? ?]; [done|].
  simpl in Hf, Hf'. injection Hf as ->. injection Hf' as ->. by rewrite Hj.
Qed.

Lemma group_loop_uniform jc first : ∀ rest acc n,
  Forall (λ s, step_type s = "streaming" ∧ step_jobconf s = jc) (first :: rest) →
  group_loop [mkGroup "streaming" (first :: acc) 0] n rest
  = Ok [mkGroup "streaming" (first :: acc ++ rest) 0].
Proof.
  induction rest as [|step rest IH]; intros acc n Hall; simpl.
  - by rewrite app_nil_r.
  - apply Forall_cons in Hall as [[Hft Hfj] Hall].
    apply Forall_cons in Hall as [[Hst Hsj] Hall].
    rewrite (group_step_snoc [] "streaming" first acc 0 n step
             : group_step [mkGroup "streaming" (first :: acc) 0] n step = _).
    rewrite bool_decide_eq_true_2 by (by rewrite Hsj, Hfj).
    simpl. rewrite (IH (acc ++ [step]) (S n)).
    + by rewrite <- app_assoc.
    + by repeat constructor.
Qed.

(** X4: a job whose steps are all streaming steps with one and the same
    jobconf is a single group, starting at step 0. *)
Theorem uniform_streaming_job_is_one_group
    (jc : option (gmap string string)) (steps : list Step) :
  steps ≠ [] →
  Forall (λ s, step_type s = "streaming" ∧ step_jobconf s = jc) steps →
  _group_steps steps = Ok [mkGroup "streaming" steps 0].
Proof.
  intros Hne Hall. destruct steps as [|first rest]; [done|].
  unfold _group_steps. simpl. rewrite group_step_nil. simpl.
  pose proof Hall as Hall'. apply Forall_cons in Hall' as [[-> _] _].
  by rewrite (group_loop_uniform jc first rest [] 1 Hall).
Qed.

Lemma uniform_streaming_job_is_one_group_witness :
  _group_steps [streaming_step None; streaming_step None; streaming_step None]
  = Ok [mkGroup "streaming"
          [streaming_step None; streaming_step None; streaming_step None] 0].
Proof.
  apply (uniform_streaming_job_is_one_group None).
  - discriminate.
  - repeat constructor.
Defined.

(** X5: the step ranges [_run_steps_on_spark] computes for the groups tile
    the job: the first group starts at step 0, each next group starts right
    after the last step of the group before it, and the last group ends at
    the last step of the job. *)
Theorem group_ranges_tile_the_job (steps : list Step) :
  ∃ groups, _group_steps steps = Ok groups
    ∧ (∀ g, head groups = Some g → group_step_num g = 0)
    ∧ (∀ i g g', groups !! i = Some g → groups !! S i = Some g' →
         group_step_num g' = last_step_num_of g + 1)
    ∧ (∀ g, last groups = Some g → last_step_num_of g + 1 = length steps).
Proof.
  destruct (group_loop_wf steps [] groups_wf_nil) as (groups & Hrun & Hwf & Hflat).
  simpl in Hflat. exists groups. split; [done|].
  pose proof (groups_wf_lookup groups Hwf) as Hlook.
  split; [|split].
  - intros g Hg. rewrite head_lookup in Hg.
    by destruct (Hlook 0 g Hg) as [_ ->].
  - intros i g g' Hi Hi'.
    destruct (Hlook i g Hi) as [Hne Hnum].
    destruct (Hlook (S i) g' Hi') as [_ Hnum'].
    rewrite Hnum'. rewrite (take_S_r groups i g Hi), flatten_snoc, length_app.
    unfold last_step_num_of. rewrite Hnum.
    destruct (group_steps g); [done|]. simpl. lia.
  - intros g Hg. apply last_Some in Hg as [before ->].
    destruct (Hlook (length before) g (list_lookup_middle before [] g _ eq_refl))
      as [Hne Hnum].
    rewrite take_app_length in Hnum. rewrite <- Hflat, flatten_snoc, length_app.
    unfold last_step_num_of. rewrite Hnum.
    destruct (group_steps g); [done|]. simpl. lia.
Qed.

(** ** More on [_check_step] *)

Lemma check_commands_ok step_num mrcs :
  check_commands step_num mrcs = Ok tt
  ↔ ∀ mrc sub, (mrc, sub) ∈ mrcs → ¬ runs_command sub.
Proof.
  split.
  - intros Hok mrc sub Hin Hcmd.
    destruct (check_commands_raises step_num mrcs mrc sub Hin Hcmd) as [msg Hmsg].
    congruence.
  - induction mrcs as [|[mrc sub] rest IH]; intros Hnone; [done|]. simpl.
    assert (check_commands step_num rest = Ok ()) as Hrest.
    { apply IH. intros mrc' sub' Hin. apply (Hnone mrc'). by right. }
    destruct sub as [d|]; [|done].
    destruct (bool_decide (d ≠ ∅)
              && (bool_decide (is_Some (d !! "command"))
                  || bool_decide (is_Some (d !! "pre_filter")))) eqn:Htest;
      [|done].
    destruct (Hnone mrc (Some d)); [by left|].
    apply andb_true_iff in Htest as [_ Hkeys].
    apply orb_true_iff in Hkeys as [Hc|Hp]; exists d.
    + split; [done|]. left. by apply bool_decide_eq_true in Hc.
    + split; [done|]. right. by apply bool_decide_eq_true in Hp.
Qed.

(** X6: [_check_step] accepts a step exactly when the superclass check
    accepts it, it has no input manifest, and, if it is a streaming step, the
    job class is set and none of its mapper, combiner and reducer has a
    [command] or a [pre_filter]. *)
Theorem check_step_accepts_iff ext mrjob_cls step step_num :
  _check_step ext mrjob_cls step step_num = Ok tt
  ↔ super_check_step ext step step_num = Ok tt
    ∧ step_input_manifest step = false
    ∧ (step_type step = "streaming" →
       is_Some mrjob_cls
       ∧ ¬ runs_command (step_mapper step)
       ∧ ¬ runs_command (step_combiner step)
       ∧ ¬ runs_command (step_reducer step)).
Proof.
  unfold _check_step.
  destruct (super_check_step ext step step_num) as [[]|e]; cbn [rbind];
    [|by split; [|intros [? _]]].
  destruct (step_input_manifest step); [by split; [|intros (_ & ? & _)]|].
  case_bool_decide as Hty.
  - destruct mrjob_cls as [cls|].
    + rewrite check_commands_ok. split.
      * intros Hnone. split; [done|]. split; [done|]. intros _.
        split; [by eexists|].
        split; [|split].
        -- apply (Hnone "mapper"). rewrite !elem_of_cons. auto.
        -- apply (Hnone "combiner"). rewrite !elem_of_cons. auto.
        -- apply (Hnone "reducer"). rewrite !elem_of_cons. auto.
      * intros (_ & _ & Hok). destruct (Hok Hty) as (_ & Hm & Hc & Hr).
        intros mrc sub Hin. rewrite !elem_of_cons in Hin.
        destruct Hin as [[= -> ->]|[[= -> ->]|[[= -> ->]|Hin]]]; try done.
        by apply elem_of_nil in Hin.
    + split; [done|]. intros (_ & _ & Hok).
      destruct (Hok Hty) as [[cls Hcls] _]. done.
  - split; [|done]. intros _. by split.
Qed.

(** ** More on staging and [_run] *)

Lemma upload_local_files_events ext r w :
  ∃ res evs, _upload_local_files ext r w = (res, w ++ evs)
    ∧ Forall (λ ev, returncode_of ev = None) evs.
Proof.
  unfold _upload_local_files. destruct (_upload_mgr r) as [m|].
  - unfold bind, fs_mkdir.
    destruct (fs_mkdir_raises ext w (prefix m)) as [e|].
    + exists (Raise e), [EvMkdir (prefix m)]. split; [done|]. by repeat constructor.
    + destruct (for_each_put_events ext (path_to_uri m) (w ++ [EvMkdir (prefix m)]))
        as (k & res & Hrun & _).
      eexists res, (EvMkdir (prefix m) :: _). rewrite Hrun.
      split; [by rewrite <- app_assoc|].
      constructor; [done|]. apply Forall_fmap, Forall_forall. by intros [src uri] _.
  - exists (Ok tt), []. split; [by rewrite app_nil_r | constructor].
Qed.

Lemma run_steps_on_spark_events ext r w :
  ∃ evs, snd (_run_steps_on_spark ext r w) = w ++ evs
    ∧ Forall (λ ev, is_Some (returncode_of ev)) evs.
Proof.
  destruct (group_loop_wf (_steps r) [] groups_wf_nil) as (groups & Hloop & Hwf & _).
  destruct (for_each_run_group ext r groups (groups_wf_nonempty groups Hwf) w)
    as (evs & Hsnd & launched & _ & Hlaunch & _).
  exists evs. split.
  - unfold _run_steps_on_spark, bind, lift, _group_steps. simpl in Hloop.
    by rewrite Hloop.
  - clear Hsnd. induction Hlaunch as [|g ev gs evs (args & rc & _ & ->) _ IH];
      constructor; [by eexists | done].
Qed.

(** X7: [_run] stages before it submits: its filesystem calls all come
    before its launches of [spark-submit], and when the staging raises,
    [_run] raises the same exception and launches nothing. *)
Theorem run_stages_before_launching ext r w :
  ∃ staged launched,
    snd (_run ext r w) = w ++ staged ++ launched
    ∧ Forall (λ ev, returncode_of ev = None) staged
    ∧ Forall (λ ev, is_Some (returncode_of ev)) launched
    ∧ ∀ paths e,
        local_setup ext = Ok paths →
        fst (_upload_local_files ext (_add_job_files_for_upload ext r paths) w)
        = Raise e →
        launched = [] ∧ fst (_run ext r w) = Raise e.
Proof.
  unfold _run, bind, lift.
  destruct (local_setup ext) as [paths|e0].
  - destruct (upload_local_files_events ext (_add_job_files_for_upload ext r paths) w)
      as (res & staged & Hup & Hstaged).
    rewrite Hup. destruct res as [[]|e].
    + destruct (run_steps_on_spark_events ext
                  (_add_job_files_for_upload ext r paths) (w ++ staged))
        as (launched & Hsnd & Hlaunched).
      exists staged, launched. rewrite Hsnd, <- app_assoc.
      split; [done|]. split; [done|]. split; [done|].
      intros paths' e [= <-] Hraise. by rewrite Hup in Hraise.
    + exists staged, []. simpl. rewrite app_nil_r.
      split; [done|]. split; [done|]. split; [constructor|].
      intros paths' e' [= <-] Hraise. rewrite Hup in Hraise.
      by injection Hraise as <-.
  - exists [], []. simpl. rewrite app_nil_r.
    split; [done|]. split; [constructor|]. split; [constructor|]. done.
Qed.

Lemma for_each_put_all ext (items : list (string * string)) : ∀ w,
  (∀ w' src uri, fs_put_raises ext w' src uri = None) →
  for_each items (λ '(src_path, uri), fs_put ext src_path uri) w
  = (Ok tt, w ++ ((λ '(src_path, uri), EvPut src_path uri) <$> items)).
Proof.
  intros w Hput. revert w.
  induction items as [|[src uri] rest IH]; intros w; simpl.
  - by rewrite app_nil_r.
  - unfold bind, fs_put at 1. rewrite Hput, IH. by rewrite <- app_assoc.
Qed.

(** X8: with an upload manager and a filesystem whose calls do not raise,
    [_upload_local_files] returns after exactly one [mkdir] of the prefix
    followed by one [put] for each recorded file, in the order of
    [path_to_uri()]. *)
Theorem upload_local_files_puts_every_file ext r m w :
  _upload_mgr r = Some m →
  (∀ w' uri, fs_mkdir_raises ext w' uri = None) →
  (∀ w' src uri, fs_put_raises ext w' src uri = None) →
  _upload_local_files ext r w
  = (Ok tt,
     w ++ EvMkdir (prefix m)
          :: ((λ '(src_path, uri), EvPut src_path uri) <$> path_to_uri m)).
Proof.
  intros Hmgr Hmkdir Hput. unfold _upload_local_files. rewrite Hmgr.
  unfold bind, fs_mkdir. rewrite Hmkdir, (for_each_put_all ext _ _ Hput).
  by rewrite <- app_assoc.
Qed.

Lemma upload_local_files_puts_every_file_witness :
  _upload_local_files (demo_ext [] ∅ (λ _, 0%Z))
    (with_upload_mgr (demo_runner [])
       (Some (mkUploadDirManager "hdfs:///tmp/files/"
                [("a.py", "hdfs:///tmp/files/a.py");
                 ("b.txt", "hdfs:///tmp/files/b.txt")]))) []
  = (Ok tt, [EvMkdir "hdfs:///tmp/files/";
             EvPut "a.py" "hdfs:///tmp/files/a.py";
             EvPut "b.txt" "hdfs:///tmp/files/b.txt"]).
Proof.
  exact (upload_local_files_puts_every_file (demo_ext [] ∅ (λ _, 0%Z))
           (with_upload_mgr (demo_runner [])
              (Some (mkUploadDirManager "hdfs:///tmp/files/"
                       [("a.py", "hdfs:///tmp/files/a.py");
                        ("b.txt", "hdfs:///tmp/files/b.txt")])))
           (mkUploadDirManager "hdfs:///tmp/files/"
              [("a.py", "hdfs:///tmp/files/a.py");
               ("b.txt", "hdfs:///tmp/files/b.txt")])
           [] eq_refl (λ _ _, eq_refl) (λ _ _ _, eq_refl)).
Defined.

(** X9: when the [mkdir] of the prefix raises, [_upload_local_files] raises
    the same exception and puts no file. *)
Theorem upload_local_files_stops_at_mkdir ext r m w e :
  _upload_mgr r = Some m →
  fs_mkdir_raises ext w (prefix m) = Some e →
  _upload_local_files ext r w = (Raise e, w ++ [EvMkdir (prefix m)]).
Proof.
  intros Hmgr Hmkdir. unfold _upload_local_files. rewrite Hmgr.
  unfold bind, fs_mkdir. by rewrite Hmkdir.
Qed.

Lemma upload_local_files_stops_at_mkdir_witness :
  _upload_local_files
    (with_fs (demo_ext [] ∅ (λ _, 0%Z))
       (λ _ _, Some (ExternalError "permission denied")) (λ _ _ _, None))
    (with_upload_mgr (demo_runner [])
       (Some (mkUploadDirManager "hdfs:///tmp/files/"
                [("a.py", "hdfs:///tmp/files/a.py")]))) []
  = (Raise (ExternalError "permission denied"), [EvMkdir "hdfs:///tmp/files/"]).
Proof.
  exact (upload_local_files_stops_at_mkdir
           (with_fs (demo_ext [] ∅ (λ _, 0%Z))
              (λ _ _, Some (ExternalError "permission denied")) (λ _ _ _, None))
           (with_upload_mgr (demo_runner [])
              (Some (mkUploadDirManager "hdfs:///tmp/files/"
                       [("a.py", "hdfs:///tmp/files/a.py")])))
           (mkUploadDirManager "hdfs:///tmp/files/"
              [("a.py", "hdfs:///tmp/files/a.py")])
           [] (ExternalError "permission denied") eq_refl eq_refl).
Defined.

(** ** The module name of the job script *)

Lemma re_sub_non_word_chars ext s c :
  In c (String.list_ascii_of_string (re_sub_non_word ext s)) →
  re_word ext c = true ∨ c = "_"%char.
Proof.
  induction s as [|c' s IH]; simpl; [done|].
  intros [<-|Hin]; [|by apply IH].
  destruct (re_word ext c') eqn:Hw; auto.
Qed.

(** X10: the module name made from the job key has the length of the job
    key, and each of its characters is a word character or an underscore. *)
Theorem job_script_module_name_chars ext r :
  String.length (_job_script_module_name ext r) = String.length (_job_key r)
  ∧ ∀ c, In c (String.list_ascii_of_string (_job_script_module_name ext r)) →
      re_word ext c = true ∨ c = "_"%char.
Proof.
  unfold _job_script_module_name. split.
  - induction (_job_key r) as [|c s IH]; simpl; [done | by rewrite IH].
  - intros c. apply re_sub_non_word_chars.
Qed.

(** X11: a job key made of word characters only is its own module name. *)
Theorem job_script_module_name_of_word_key ext r :
  (∀ c, In c (String.list_ascii_of_string (_job_key r)) → re_word ext c = true) →
  _job_script_module_name ext r = _job_key r.
Proof.
  unfold _job_script_module_name.
  induction (_job_key r) as [|c s IH]; simpl; intros Hword; [done|].
  rewrite (Hword c) by auto. rewrite IH; [done|]. intros c' Hin. apply Hword. auto.
Qed.

Lemma job_script_module_name_of_word_key_witness :
  _job_script_module_name (demo_ext [] ∅ (λ _, 0%Z))
    (mkRunner None "mr_wc_2019" [] "/tmp" None None)
  = "mr_wc_2019".
Proof.
  apply (job_script_module_name_of_word_key (demo_ext [] ∅ (λ _, 0%Z))
           (mkRunner None "mr_wc_2019" [] "/tmp" None None)).
  intros c Hin. simpl in Hin.
  repeat (destruct Hin as [<-|Hin]; [reflexivity|]). destruct Hin.
Defined.

(** X12: when the dot is not a word character, the module name has no dot:
    in the first harness argument, [module.class], the module name is what
    comes before the first dot. *)
Theorem job_script_module_name_has_no_dot ext r :
  re_word ext "."%char = false →
  ¬ In "."%char (String.list_ascii_of_string (_job_script_module_name ext r)).
Proof.
  intros Hdot Hin.
  apply re_sub_non_word_chars in Hin as [Hw|Hu]; [congruence | discriminate].
Qed.

Lemma job_script_module_name_has_no_dot_witness :
  ¬ In "."%char
      (String.list_ascii_of_string
         (_job_script_module_name (demo_ext [] ∅ (λ _, 0%Z))
            (demo_runner []))).
Proof.
  exact (job_script_module_name_has_no_dot (demo_ext [] ∅ (λ _, 0%Z))
           (demo_runner []) eq_refl).
Defined.

(** ** The harness path *)

Lemma str_endswith_unfold suffix s :
  str_endswith suffix s
  = String.eqb s suffix
    || match s with
       | EmptyString => false
       | String _ rest => str_endswith suffix rest
       end.
Proof. by destruct s. Qed.

Lemma str_endswith_refl s : str_endswith s s = true.
Proof. by rewrite str_endswith_unfold, String.eqb_refl. Qed.

Lemma str_snoc_inj c c' : ∀ s s',
  s +:+ String c EmptyString = s' +:+ String c' EmptyString → s = s' ∧ c = c'.
Proof.
  induction s as [|a s IH]; intros [|a' s'] Heq; simpl in Heq.
  - by injection Heq as ->.
  - injection Heq as _ Heq. by destruct s'.
  - injection Heq as _ Heq. by destruct s.
  - injection Heq as -> Heq. destruct (IH s' Heq) as [-> ->]. done.
Qed.

Lemma str_endswith_last suffix c : ∀ s,
  str_endswith (suffix +:+ String c EmptyString) s = true →
  ∃ s', s = s' +:+ String c EmptyString ∧ str_endswith suffix s' = true.
Proof.
  induction s as [|a s IH]; rewrite str_endswith_unfold.
  - rewrite orb_false_r. intros Heq%String.eqb_eq. by destruct suffix.
  - intros [Heq%String.eqb_eq|Hrest]%orb_true_iff.
    + exists suffix. split; [done | apply str_endswith_refl].
    + destruct (IH Hrest) as (s' & -> & Hs'). exists (String a s').
      split; [done|]. by rewrite str_endswith_unfold, Hs', orb_true_r.
Qed.

Lemma drop_last_snoc c : ∀ s, drop_last (s +:+ String c EmptyString) = s.
Proof.
  induction s as [|a s IH]; simpl; [done|].
  rewrite IH. by destruct s.
Qed.

Lemma str_endswith_app suffix : ∀ s, str_endswith suffix (s +:+ suffix) = true.
Proof.
  induction s as [|a s IH]; simpl.
  - apply str_endswith_refl.
  - by rewrite IH, orb_true_r.
Qed.

Lemma str_endswith_snoc_ne suffix c c' s :
  c ≠ c' →
  str_endswith (suffix +:+ String c EmptyString) (s +:+ String c' EmptyString)
  = false.
Proof.
  intros Hne. destruct (str_endswith _ _) eqn:Hends; [|done].
  destruct (str_endswith_last suffix c _ Hends) as (s' & Heq & _).
  apply str_snoc_inj in Heq as [_ <-]. done.
Qed.

Lemma str_app_assoc : ∀ a b c : string, (a +:+ b) +:+ c = a +:+ (b +:+ c).
Proof.
  induction a as [|x a IH]; intros b c; [done|].
  change (String x ((a +:+ b) +:+ c) = String x (a +:+ (b +:+ c))).
  f_equal. apply IH.
Qed.

(** X13: [_spark_harness_path] turns the path of a compiled module, ending
    in [.pyc], into the path of its source, ending in [.py], leaves any other
    path as it is, and never returns a path that ends in [.pyc]. *)
Theorem spark_harness_path_is_source (harness_file : string) :
  (∀ stem, harness_file = stem +:+ ".pyc" →
     _spark_harness_path harness_file = stem +:+ ".py")
  ∧ (str_endswith ".pyc" harness_file = false →
     _spark_harness_path harness_file = harness_file)
  ∧ str_endswith ".pyc" (_spark_harness_path harness_file) = false.
Proof.
  unfold _spark_harness_path. split; [|split].
  - intros stem ->. rewrite str_endswith_app.
    rewrite <- (drop_last_snoc "c" (stem +:+ ".py")). by rewrite str_app_assoc.
  - by intros ->.
  - destruct (str_endswith ".pyc" harness_file) eqn:Hends; [|done].
    destruct (str_endswith_last ".py" "c" harness_file Hends) as (s & -> & Hs).
    rewrite drop_last_snoc.
    destruct (str_endswith_last ".p" "y" s Hs) as (s' & -> & _).
    by apply (str_endswith_snoc_ne ".py" "c" "y").
Qed.

(** ** What the constructor sets up *)

Lemma truthy_str_app_cons p c s : truthy_str (p +:+ String c s) = true.
Proof. by destruct p. Qed.

Lemma ends_with_slash_app b : ∀ p,
  b ≠ EmptyString → ends_with_slash (p +:+ b) = ends_with_slash b.
Proof.
  intros p Hb. induction p as [|a p IH]; [done|].
  change (ends_with_slash (String a (p +:+ b)) = ends_with_slash b).
  rewrite <- IH. simpl. destruct (p +:+ b) eqn:Hpb; [|done].
  destruct p; [done | discriminate].
Qed.

Lemma posixpath_join_cons a b rest :
  posixpath_join a (b :: rest)
  = posixpath_join
      (if starts_with_slash b then b
       else if negb (truthy_str a) || ends_with_slash a then a +:+ b
       else a +:+ "/" +:+ b) rest.
Proof. done. Qed.

(** Joining a directory with a relative name. *)
Lemma posixpath_join_relative a c name :
  c ≠ "/"%char →
  posixpath_join a [String c name]
  = if negb (truthy_str a) || ends_with_slash a then a +:+ String c name
    else a +:+ "/" +:+ String c name.
Proof.
  intros Hc. rewrite posixpath_join_cons.
  change (starts_with_slash (String c name)) with (Ascii.eqb c "/").
  by rewrite (proj2 (Ascii.eqb_neq c "/") Hc).
Qed.

Lemma posixpath_join_files a :
  posixpath_join a ["files"; EmptyString]
  = (if negb (truthy_str a) || ends_with_slash a then a +:+ "files/"
     else a +:+ "/files/").
Proof.
  rewrite posixpath_join_cons.
  change (starts_with_slash "files") with false. cbv iota.
  rewrite posixpath_join_cons.
  change (starts_with_slash EmptyString) with false. cbv iota.
  change (posixpath_join ?x []) with x.
  destruct (negb (truthy_str a) || ends_with_slash a).
  - rewrite (truthy_str_app_cons a "f" "iles").
    rewrite (ends_with_slash_app "files" a) by done.
    change (negb true || ends_with_slash "files") with false. cbv iota.
    by rewrite str_app_assoc.
  - change (a +:+ "/" +:+ "files") with (a +:+ "/files").
    rewrite (truthy_str_app_cons a "/" "files").
    rewrite (ends_with_slash_app "/files" a) by done.
    change (negb true || ends_with_slash "/files") with false. cbv iota.
    by rewrite str_app_assoc.
Qed.

(** X14: the upload manager the constructor makes exists only for a
    temporary directory that is a URI; it is empty, and its prefix is the
    directory [files/] inside that temporary directory, ending in a slash. *)
Theorem init_upload_manager_prefix ext mrjob_cls kw r m :
  __init__ ext mrjob_cls kw = Ok r →
  _upload_mgr r = Some m →
  is_uri ext (_spark_tmp_dir r) = true
  ∧ path_to_uri m = []
  ∧ ends_with_slash (prefix m) = true
  ∧ (prefix m = _spark_tmp_dir r +:+ "/files/"
     ∨ prefix m = _spark_tmp_dir r +:+ "files/").
Proof.
  intros Hinit Hmgr. apply init_upload_mgr in Hinit. rewrite Hmgr in Hinit.
  destruct (is_uri ext (_spark_tmp_dir r)); [|done].
  assert (m = mkUploadDirManager
                (posixpath_join (_spark_tmp_dir r) ["files"; EmptyString]) [])
    as -> by congruence.
  cbn [prefix path_to_uri]. split; [done|]. split; [done|].
  rewrite posixpath_join_files.
  destruct (negb (truthy_str (_spark_tmp_dir r)) || ends_with_slash (_spark_tmp_dir r)).
  - split; [by apply ends_with_slash_app | by right].
  - split; [by apply ends_with_slash_app | by left].
Qed.

Lemma init_upload_manager_prefix_witness :
  is_uri (demo_ext [] ∅ (λ _, 0%Z)) (_spark_tmp_dir demo_uri_runner) = true
  ∧ path_to_uri (mkUploadDirManager
                   "hdfs:///tmp/mr_word_count.user.20190101.000000/files/" []) = []
  ∧ ends_with_slash "hdfs:///tmp/mr_word_count.user.20190101.000000/files/" = true
  ∧ ("hdfs:///tmp/mr_word_count.user.20190101.000000/files/"
     = _spark_tmp_dir demo_uri_runner +:+ "/files/"
     ∨ "hdfs:///tmp/mr_word_count.user.20190101.000000/files/"
       = _spark_tmp_dir demo_uri_runner +:+ "files/").
Proof.
  assert (__init__ (demo_ext [] ∅ (λ _, 0%Z)) (Some "MRWordCount") demo_uri_kwargs
          = Ok demo_uri_runner) as Hinit by (vm_compute; reflexivity).
  exact (init_upload_manager_prefix _ _ _ _
           (mkUploadDirManager
              "hdfs:///tmp/mr_word_count.user.20190101.000000/files/" [])
           Hinit eq_refl).
Defined.

Lemma init_output_dir_field ext mrjob_cls kw r :
  __init__ ext mrjob_cls kw = Ok r →
  _output_dir r
  = if truthy (kw_output_dir kw) then kw_output_dir kw
    else Some (posixpath_join (_spark_tmp_dir r) ["output"]).
Proof.
  unfold __init__.
  destruct (super_init_check_steps ext mrjob_cls 0 (kw_steps kw)); [|done].
  cbn [rbind]. by intros [= <-].
Qed.

(** X15: after construction the output directory is set and not empty: an
    output directory given by the caller is kept, and otherwise it is the
    directory [output] inside the temporary directory. *)
Theorem init_output_dir ext mrjob_cls kw r :
  __init__ ext mrjob_cls kw = Ok r →
  ∃ d, _output_dir r = Some d ∧ d ≠ EmptyString
    ∧ (∀ given, kw_output_dir kw = Some given → given ≠ EmptyString → d = given)
    ∧ (truthy (kw_output_dir kw) = false →
       d = _spark_tmp_dir r +:+ "/output" ∨ d = _spark_tmp_dir r +:+ "output").
Proof.
  intros Hinit. rewrite (init_output_dir_field ext mrjob_cls kw r Hinit).
  destruct (truthy (kw_output_dir kw)) eqn:Hgiven.
  - apply truthy_Some in Hgiven as (d & Hd & Hne). exists d.
    split; [done|]. split; [done|]. split; [|done].
    intros given Hg _. congruence.
  - eexists. split; [done|].
    rewrite (posixpath_join_relative _ "o" "utput") by done.
    split; [|split].
    + destruct (negb _ || _); by destruct (_spark_tmp_dir r).
    + intros given Hg Hne. rewrite Hg in Hgiven. simpl in Hgiven.
      apply negb_false_iff, String.eqb_eq in Hgiven. done.
    + intros _. destruct (negb _ || _); auto.
Qed.

Lemma init_output_dir_witness :
  ∃ d, _output_dir demo_uri_runner = Some d ∧ d ≠ EmptyString
    ∧ (∀ given, kw_output_dir demo_uri_kwargs = Some given →
         given ≠ EmptyString → d = given)
    ∧ (truthy (kw_output_dir demo_uri_kwargs) = false →
       d = _spark_tmp_dir demo_uri_runner +:+ "/output"
       ∨ d = _spark_tmp_dir demo_uri_runner +:+ "output").
Proof.
  assert (__init__ (demo_ext [] ∅ (λ _, 0%Z)) (Some "MRWordCount") demo_uri_kwargs
          = Ok demo_uri_runner) as Hinit by (vm_compute; reflexivity).
  exact (init_output_dir _ _ _ _ Hinit).
Defined.

(** X16: when the temporary directory is made with [posixpath.join] (the
    option [spark_tmp_dir] is a URI, or it is unset and the Spark master is
    not local), two jobs with the same options and different job keys get
    different temporary directories. *)
Theorem pick_spark_tmp_dir_job_scoped ext kw1 kw2 :
  kw_spark_tmp_dir kw1 = kw_spark_tmp_dir kw2 →
  (∃ d, kw_spark_tmp_dir kw1 = Some d ∧ truthy_str d = true ∧ is_uri ext d = true)
  ∨ (truthy (kw_spark_tmp_dir kw1) = false ∧ _spark_master_is_local ext = false) →
  starts_with_slash (kw_job_key kw1) = false →
  starts_with_slash (kw_job_key kw2) = false →
  _pick_spark_tmp_dir ext kw1 = _pick_spark_tmp_dir ext kw2 →
  kw_job_key kw1 = kw_job_key kw2.
Proof.
  intros Hopt Hcase Hk1 Hk2.
  assert (∃ base, ∀ kw, kw_spark_tmp_dir kw = kw_spark_tmp_dir kw1 →
            _pick_spark_tmp_dir ext kw = posixpath_join base [kw_job_key kw])
    as [base Hbase].
  { destruct Hcase as [(d & Hd & Ht & Hu)|[Hnone Hlocal]].
    - exists d. intros kw Hkw. unfold _pick_spark_tmp_dir.
      by rewrite Hkw, Hd, Ht, Hu.
    - exists (fully_qualify_hdfs_path ext "tmp/mrjob"). intros kw Hkw.
      unfold _pick_spark_tmp_dir. rewrite Hkw, Hlocal.
      destruct (kw_spark_tmp_dir kw1) as [d|]; [|done].
      simpl in Hnone. by rewrite Hnone. }
  rewrite (Hbase kw1 eq_refl), (Hbase kw2 (eq_sym Hopt)).
  rewrite !posixpath_join_cons, Hk1, Hk2.
  change (posixpath_join ?x []) with x.
  destruct (negb (truthy_str base) || ends_with_slash base); intros Heq.
  - by apply (inj (String.app base)) in Heq.
  - apply (inj (String.app base)) in Heq. by apply (inj (String.app "/")) in Heq.
Qed.

Lemma pick_spark_tmp_dir_job_scoped_witness :
  kw_job_key demo_uri_kwargs = kw_job_key demo_uri_kwargs.
Proof.
  apply (pick_spark_tmp_dir_job_scoped (demo_ext [] ∅ (λ _, 0%Z))
           demo_uri_kwargs demo_uri_kwargs).
  - reflexivity.
  - left. exists "hdfs:///tmp". repeat split; vm_compute; reflexivity.
  - reflexivity.
  - reflexivity.
  - reflexivity.
Defined.

(** ** More on [_spark_script_args] and on the submission loop *)

(** X17: [_spark_script_args] raises only in three cases: the step number
    is out of range ([IndexError]); the step is not a streaming step and the
    superclass method raises; the step is a streaming step and no job class
    was given ([AttributeError]). *)
Theorem spark_script_args_raises_iff ext r step_num last_step_num e :
  _spark_script_args ext r step_num last_step_num = Raise e
  ↔ (_steps r !! step_num = None ∧ e = IndexError)
    ∨ (∃ step, _steps r !! step_num = Some step
         ∧ step_type step ≠ "streaming"
         ∧ super_spark_script_args ext step_num last_step_num = Raise e)
    ∨ (∃ step, _steps r !! step_num = Some step
         ∧ step_type step = "streaming"
         ∧ _mrjob_cls r = None ∧ e = AttributeError).
Proof.
  destruct (_steps r !! step_num) as [step|] eqn:Hstep.
  - destruct (decide (step_type step = "streaming")) as [Hty|Hty].
    + destruct (_mrjob_cls r) as [cls|] eqn:Hcls.
      * rewrite (spark_script_args_streaming ext r step_num last_step_num step cls)
          by done.
        split; [done|]. intros [[? _]|[(s & [= <-] & ? & _)|(s & _ & _ & ? & _)]];
          done.
      * unfold _spark_script_args, _get_step. rewrite Hstep. cbn [rbind].
        rewrite bool_decide_eq_true_2 by done. cbn [negb]. rewrite Hcls.
        cbn [rbind]. split.
        -- intros [= <-]. right. right. by exists step.
        -- intros [[? _]|[(s & [= <-] & ? & _)|(s & _ & _ & _ & ->)]]; done.
    + unfold _spark_script_args, _get_step. rewrite Hstep. cbn [rbind].
      rewrite bool_decide_eq_false_2 by done. cbn [negb]. split.
      * intros Hsuper. right. left. by exists step.
      * intros [[? _]|[(s & _ & _ & ?)|(s & [= <-] & ? & _)]]; done.
  - unfold _spark_script_args, _get_step. rewrite Hstep. cbn [rbind]. split.
    + intros [= <-]. by left.
    + intros [[_ ->]|[(s & ? & _)|(s & ? & _)]]; done.
Qed.

Lemma range_part_nil_iff r step_num last_step_num :
  range_part r step_num last_step_num = []
  ↔ step_num = 0 ∧ last_step_num + 1 = length (_steps r).
Proof.
  unfold range_part, _num_steps.
  destruct (decide (step_num = 0)) as [->|Hn].
  - rewrite bool_decide_eq_true_2 by done.
    destruct (decide (Z.of_nat last_step_num = (Z.of_nat (length (_steps r)) - 1)%Z))
      as [Hl|Hl].
    + rewrite bool_decide_eq_true_2 by done. simpl. split; [|done].
      intros _. split; [done | lia].
    + rewrite bool_decide_eq_false_2 by done. simpl. split; [done|].
      intros [_ ?]. lia.
  - rewrite bool_decide_eq_false_2 by done. simpl. split; [done|]. by intros [? _].
Qed.

Lemma range_part_cases r step_num last_step_num :
  range_part r step_num last_step_num = []
  ∨ range_part r step_num last_step_num
    = [AStr "--first-step-num"; AInt (Z.of_nat step_num);
       AStr "--last_step_num"; AInt (Z.of_nat step_num)].
Proof. unfold range_part. destruct (negb _); auto. Qed.

(** X18: the arguments built for a group of streaming steps are all strings
    exactly when the group is the whole job; for any other group the step
    number is in the list as an int. *)
Theorem spark_script_args_all_text_iff ext r step_num last_step_num step cls :
  _steps r !! step_num = Some step →
  step_type step = "streaming" →
  _mrjob_cls r = Some cls →
  ∃ args,
    _spark_script_args ext r step_num last_step_num = Ok args
    ∧ (Forall (λ a, ∃ s, a = AStr s) args
       ↔ step_num = 0
         ∧ default step_num last_step_num + 1 = length (_steps r))
    ∧ (¬ (step_num = 0 ∧ default step_num last_step_num + 1 = length (_steps r))
       → AInt (Z.of_nat step_num) ∈ args).
Proof.
  intros Hstep Hty Hcls.
  rewrite (spark_script_args_streaming ext r step_num last_step_num step cls)
    by done.
  eexists. split; [done|].
  rewrite <- range_part_nil_iff.
  assert (Forall (λ a, ∃ s, a = AStr s) (job_args_part ext)) as Hjob.
  { unfold job_args_part. destruct (_mr_job_extra_args ext); repeat constructor;
      by eexists. }
  set (codec := if _ && _ && _ then _ else _).
  assert (Forall (λ a, ∃ s, a = AStr s) codec) as Hcodec.
  { unfold codec. destruct (_ && _ && _); repeat constructor; by eexists. }
  split.
  - rewrite !Forall_app. split.
    + intros (_ & Hrange & _).
      destruct (range_part_cases r step_num (default step_num last_step_num))
        as [Hr|Hr]; [done|].
      rewrite Hr in Hrange.
      apply Forall_cons in Hrange as [_ Hrange].
      apply Forall_cons in Hrange as [[s ?] _]. done.
    + intros ->. split; [|split; [constructor | by split]].
      repeat constructor; by eexists.
  - intros Hsub. rewrite !elem_of_app. right. left.
    destruct (range_part_cases r step_num (default step_num last_step_num))
      as [Hr|Hr]; [done|].
    rewrite Hr, !elem_of_cons. auto.
Qed.

Lemma spark_script_args_all_text_iff_witness :
  ∃ args,
    _spark_script_args (demo_ext [] ∅ (λ _, 0%Z))
      (demo_runner [streaming_step None; streaming_step None]) 1 None = Ok args
    ∧ AInt 1 ∈ args.
Proof.
  destruct (spark_script_args_all_text_iff (demo_ext [] ∅ (λ _, 0%Z))
              (demo_runner [streaming_step None; streaming_step None]) 1 None
              (streaming_step None) "MRWordCount" eq_refl eq_refl eq_refl)
    as (args & Hargs & _ & Hint).
  exists args. split; [exact Hargs|]. apply Hint. intros [Hzero _]. discriminate Hzero.
Defined.



(** ** The copy of the job script *)

Lemma get_job_script_dir_ok ext (env : JobScript.Env) (st : JobScript.State) :
  let path := os_path_join ext (JobScript.local_tmp_dir env) "job_script" in
  JobScript.mkdir_raises env path = None →
  ∃ d, JobScript._get_job_script_dir ext env st
       = (Ok path, JobScript.with_disk st d)
    ∧ path ∈ d ∧ JobScript.disk st ⊆ d
    ∧ (path ∈ JobScript.disk st → JobScript.with_disk st d = st).
Proof.
  intros path Hmk. unfold JobScript._get_job_script_dir. fold path.
  case_bool_decide as Hin.
  - exists (JobScript.disk st). by destruct st.
  - rewrite Hmk. eexists. split; [done|]. split; [set_solver|].
    split; [set_solver | done].
Qed.

(** X20: [_get_job_script_dir] returns the directory [job_script] of the
    local temporary directory; when [os.mkdir] does not raise, that path
    exists afterwards and nothing else changes; a second call returns the
    same path and changes nothing, without calling [os.mkdir]: it does so
    even when [os.mkdir] would raise. *)
Theorem get_job_script_dir_idempotent ext (env : JobScript.Env)
    (st : JobScript.State) :
  let path := os_path_join ext (JobScript.local_tmp_dir env) "job_script" in
  JobScript.mkdir_raises env path = None →
  ∃ st', JobScript._get_job_script_dir ext env st = (Ok path, st')
    ∧ path ∈ JobScript.disk st'
    ∧ JobScript.disk st ⊆ JobScript.disk st'
    ∧ JobScript._spark_files st' = JobScript._spark_files st
    ∧ ∀ env' : JobScript.Env,
        JobScript.local_tmp_dir env' = JobScript.local_tmp_dir env →
        JobScript._get_job_script_dir ext env' st' = (Ok path, st').
Proof.
  intros path Hmk.
  destruct (get_job_script_dir_ok ext env st Hmk) as (d & Hrun & Hin & Hsub & _).
  exists (JobScript.with_disk st d). split; [done|]. split; [done|].
  split; [done|]. split; [done|].
  intros env' Htmp. unfold JobScript._get_job_script_dir. rewrite Htmp.
  fold path. by rewrite bool_decide_eq_true_2.
Qed.

Lemma get_job_script_dir_idempotent_witness :
  ∃ st', JobScript._get_job_script_dir (demo_ext [] ∅ (λ _, 0%Z))
           demo_script_env demo_script_state
         = (Ok "/tmp/mr_word_count.user.20190101.000000/job_script", st')
    ∧ JobScript._get_job_script_dir (demo_ext [] ∅ (λ _, 0%Z))
        (JobScript.mkEnv "mr_word_count.py"
           "/tmp/mr_word_count.user.20190101.000000"
           (λ _, Some (ExternalError "mkdir failed")) (λ _ _, None)
           (λ _ _ _, None)) st'
      = (Ok "/tmp/mr_word_count.user.20190101.000000/job_script", st').
Proof.
  destruct (get_job_script_dir_idempotent (demo_ext [] ∅ (λ _, 0%Z))
              demo_script_env demo_script_state eq_refl)
    as (st' & Hrun & _ & _ & _ & Hagain).
  exists st'. split; [exact Hrun|].
  exact (Hagain (JobScript.mkEnv "mr_word_count.py"
                   "/tmp/mr_word_count.user.20190101.000000"
                   (λ _, Some (ExternalError "mkdir failed")) (λ _ _, None)
                   (λ _ _ _, None)) eq_refl).
Defined.

Lemma get_job_script_copy_ok ext r (env : JobScript.Env) (st : JobScript.State) :
  let dir := os_path_join ext (JobScript.local_tmp_dir env) "job_script" in
  let filename := _job_script_module_name ext r +:+ ".py" in
  let dest := os_path_join ext dir filename in
  truthy (JobScript._job_script_copy st) = false →
  JobScript.mkdir_raises env dir = None →
  JobScript.copy_raises env (JobScript.script_path env) dest = None →
  JobScript.add_raises env "file" dest filename = None →
  ∃ st', JobScript._get_job_script_copy ext r env st = (Ok dest, st')
    ∧ JobScript._spark_files st' = JobScript._spark_files st ++ [(filename, dest)]
    ∧ JobScript.working_dir_added st'
      = JobScript.working_dir_added st ++ [("file", dest, filename)]
    ∧ JobScript.copied st'
      = JobScript.copied st ++ [(JobScript.script_path env, dest)]
    ∧ dir ∈ JobScript.disk st'
    ∧ JobScript._job_script_copy st' = JobScript._job_script_copy st.
Proof.
  intros dir filename dest Hguard Hmk Hcopy Hadd.
  unfold JobScript._get_job_script_copy. rewrite Hguard. cbn [negb].
  destruct (get_job_script_dir_ok ext env st Hmk) as (d & -> & Hdir & _ & _).
  fold dir filename dest. rewrite Hcopy, Hadd.
  eexists. split; [done|]. by repeat split.
Qed.

(** X21: when no call raises, [_get_job_script_copy] copies the script to
    [<module name>.py] in the job script directory, returns that path, and
    records the file under that name in [_spark_files] and in the working
    directory; the attribute [_job_script_copy], which its guard reads, is
    left as it was. *)
Theorem get_job_script_copy_result ext r (env : JobScript.Env)
    (st : JobScript.State) :
  let dir := os_path_join ext (JobScript.local_tmp_dir env) "job_script" in
  let filename := _job_script_module_name ext r +:+ ".py" in
  let dest := os_path_join ext dir filename in
  truthy (JobScript._job_script_copy st) = false →
  JobScript.mkdir_raises env dir = None →
  JobScript.copy_raises env (JobScript.script_path env) dest = None →
  JobScript.add_raises env "file" dest filename = None →
  ∃ st', JobScript._get_job_script_copy ext r env st = (Ok dest, st')
    ∧ JobScript._spark_files st' = JobScript._spark_files st ++ [(filename, dest)]
    ∧ JobScript.working_dir_added st'
      = JobScript.working_dir_added st ++ [("file", dest, filename)]
    ∧ JobScript.copied st'
      = JobScript.copied st ++ [(JobScript.script_path env, dest)]
    ∧ dir ∈ JobScript.disk st'
    ∧ JobScript._job_script_copy st' = JobScript._job_script_copy st.
Proof. exact (get_job_script_copy_ok ext r env st). Qed.

Lemma get_job_script_copy_result_witness :
  ∃ st', JobScript._get_job_script_copy (demo_ext [] ∅ (λ _, 0%Z))
           (demo_runner []) demo_script_env demo_script_state
         = (Ok "/tmp/mr_word_count.user.20190101.000000/job_script/mr_word_count_user_20190101_000000.py",
            st')
    ∧ JobScript._spark_files st'
      = [("mr_word_count_user_20190101_000000.py",
          "/tmp/mr_word_count.user.20190101.000000/job_script/mr_word_count_user_20190101_000000.py")].
Proof.
  destruct (get_job_script_copy_result (demo_ext [] ∅ (λ _, 0%Z))
              (demo_runner []) demo_script_env demo_script_state
              eq_refl eq_refl eq_refl eq_refl)
    as (st' & Hrun & Hfiles & _).
  exists st'. split; [exact Hrun | exact Hfiles].
Defined.

(** X23: the name under which the copy of the job script is put in the
    working directory is [<module>.py] for the very module name that
    qualifies the job class in the first harness argument. *)
Theorem job_script_copy_matches_harness_module ext r (env : JobScript.Env)
    (st : JobScript.State) step_num last_step_num step cls :
  let dir := os_path_join ext (JobScript.local_tmp_dir env) "job_script" in
  let filename := _job_script_module_name ext r +:+ ".py" in
  let dest := os_path_join ext dir filename in
  truthy (JobScript._job_script_copy st) = false →
  JobScript.mkdir_raises env dir = None →
  JobScript.copy_raises env (JobScript.script_path env) dest = None →
  JobScript.add_raises env "file" dest filename = None →
  _steps r !! step_num = Some step →
  step_type step = "streaming" →
  _mrjob_cls r = Some cls →
  ∃ module path st' options,
    JobScript._get_job_script_copy ext r env st = (Ok path, st')
    ∧ last (JobScript.working_dir_added st')
      = Some ("file", path, module +:+ ".py")
    ∧ _spark_script_args ext r step_num last_step_num
      = Ok (AStr (module +:+ "." +:+ cls) :: options).
Proof.
  intros dir filename dest Hguard Hmk Hcopy Hadd Hstep Hty Hcls.
  destruct (get_job_script_copy_ok ext r env st Hguard Hmk Hcopy Hadd)
    as (st' & Hrun & _ & Hadded & _).
  rewrite (spark_script_args_streaming ext r step_num last_step_num step cls)
    by done.
  exists (_job_script_module_name ext r), dest, st'. eexists.
  split; [done|]. split; [|done]. by rewrite Hadded, last_snoc.
Qed.

Lemma job_script_copy_matches_harness_module_witness :
  ∃ module path st' options,
    JobScript._get_job_script_copy (demo_ext [] ∅ (λ _, 0%Z))
      (demo_runner [streaming_step None]) demo_script_env demo_script_state
    = (Ok path, st')
    ∧ last (JobScript.working_dir_added st')
      = Some ("file", path, module +:+ ".py")
    ∧ _spark_script_args (demo_ext [] ∅ (λ _, 0%Z))
        (demo_runner [streaming_step None]) 0 None
      = Ok (AStr (module +:+ "." +:+ "MRWordCount") :: options).
Proof.
  exact (job_script_copy_matches_harness_module (demo_ext [] ∅ (λ _, 0%Z))
           (demo_runner [streaming_step None]) demo_script_env demo_script_state
           0 None (streaming_step None) "MRWordCount"
           eq_refl eq_refl eq_refl eq_refl eq_refl eq_refl eq_refl).
Defined.

(** X24: when the caller gives no output directory, the default directory
    for the output of intermediate steps is not the output directory of the
    job. *)
Theorem step_output_dir_apart ext mrjob_cls kw r :
  __init__ ext mrjob_cls kw = Ok r →
  truthy (kw_output_dir kw) = false →
  _output_dir r ≠ Some (_default_step_output_dir r).
Proof.
  intros Hinit Hnone. rewrite (init_output_dir_field ext mrjob_cls kw r Hinit), Hnone.
  unfold _default_step_output_dir.
  rewrite (posixpath_join_relative _ "o" "utput") by done.
  rewrite (posixpath_join_relative _ "s" "tep-output") by done.
  destruct (negb _ || _); intros [= Heq].
  - by apply (inj (String.app _)) in Heq.
  - apply (inj (String.app _)) in Heq. by apply (inj (String.app "/")) in Heq.
Qed.

Lemma step_output_dir_apart_witness :
  _output_dir demo_uri_runner ≠ Some (_default_step_output_dir demo_uri_runner).
Proof.
  assert (__init__ (demo_ext [] ∅ (λ _, 0%Z)) (Some "MRWordCount") demo_uri_kwargs
          = Ok demo_uri_runner) as Hinit by (vm_compute; reflexivity).
  exact (step_output_dir_apart _ _ _ _ Hinit eq_refl).
Defined.
